(** * Coalescer: key parsing, grouping, batching and per-batch execution

    A shallow embedding of [coalescer/utility/grouping.py] and of the
    orchestration part of [coalescer/main.py], with the properties the
    design document states about them.

    Conventions of the embedding:
    - a Python [str] is a list of characters, a character being a code
      point below 256 (Latin-1); the character classes of the regular
      expression are Python's classes restricted to that range;
    - a Python [int] is a [Z];
    - a Python [dict] is a [gmap]; no property below depends on the
      iteration order of a dict;
    - the object store ([utility.s3]) is a parameter of the executor. *)

From Stdlib Require Import ZArith Ascii String List Bool Lia.
From Stdlib Require Import Decimal DecimalString DecimalN DecimalPos.
From stdpp Require Import base option list gmap strings sorting.

Local Open Scope Z_scope.

(** ** Strings and character classes *)

Abbreviation str := (list ascii).

(** A string literal as a [str]. *)
Definition txt (lit : string) : str := list_ascii_of_string lit.

Definition code (c : ascii) : Z := Z.of_N (N_of_ascii c).

Definition between (lo hi : Z) (c : ascii) : bool :=
  (lo <=? code c) && (code c <=? hi).

(** [\d] on a [str] pattern: the decimal digits; below code point 256
    these are exactly [0-9]. *)
Definition is_digit (c : ascii) : bool := between 48 57 c.

(** [\w] on a [str] pattern: alphanumeric code points and the
    underscore; below code point 256 these are the ranges listed. *)
Definition is_word (c : ascii) : bool :=
  between 48 57 c || between 65 90 c || between 95 95 c
  || between 97 122 c || between 170 170 c || between 178 179 c
  || between 181 181 c || between 185 186 c || between 188 190 c
  || between 192 214 c || between 216 246 c || between 248 255 c.

(** The class [[.\w]]. *)
Definition is_word_or_dot (c : ascii) : bool :=
  bool_decide (c = "."%char) || is_word c.

(** [int(text)] for a text of decimal digits. *)
Definition int (text : str) : Z :=
  foldl (fun acc c => acc * 10 + (code c - 48)) 0 text.

(** ** The fragment of [re] used by [filename_re]

    The pattern is a sequence of items: a literal character, a
    capturing group [(cls+)] over a character class, and the anchor
    [$]. *)

Inductive item : Type :=
  | Lit (c : ascii)
  | Cap (cls : ascii -> bool)
  | Eos.

(** Length of the longest prefix of [text] inside the class. *)
Fixpoint run_length (cls : ascii -> bool) (text : str) : nat :=
  match text with
  | c :: text' => if cls c then S (run_length cls text') else O
  | [] => O
  end.

(** Greedy choice with backtracking: the first [k], from [n] down to
    [1], at which [f] succeeds. *)
Fixpoint first_some {R : Type} (f : nat -> option R) (n : nat) : option R :=
  match n with
  | O => None
  | S n' => match f n with
            | Some r => Some r
            | None => first_some f n'
            end
  end.

(** Without [re.MULTILINE], [$] matches at the end of the string and
    just before a newline that is the last character of the string. *)
Definition at_end (text : str) : bool :=
  match text with
  | [] => true
  | [c] => bool_decide (c = "010"%char)
  | _ => false
  end.

(** [match_here p text]: match the pattern at the start of [text];
    the result is the captured groups and the text left after the
    match. *)
Fixpoint match_here (p : list item) (text : str) : option (list str * str) :=
  match p with
  | [] => Some ([], text)
  | Lit c :: p' =>
      match text with
      | c' :: text' => if bool_decide (c = c') then match_here p' text' else None
      | [] => None
      end
  | Cap cls :: p' =>
      first_some
        (fun k => match match_here p' (drop k text) with
                  | Some (caps, rest) => Some (take k text :: caps, rest)
                  | None => None
                  end)
        (run_length cls text)
  | Eos :: p' => if at_end text then match_here p' text else None
  end.

(** [findall]: scan the text from left to right; at each position try
    the pattern, record the groups of a match and go on after it.
    [skip] counts the characters of the last match still to pass. *)
Fixpoint scan (p : list item) (skip : nat) (text : str) : list (list str) :=
  match skip with
  | S k => match text with
           | [] => []
           | _ :: text' => scan p k text'
           end
  | O =>
      match match_here p text with
      | Some (caps, rest) =>
          caps :: match text with
                  | [] => []
                  | _ :: text' =>
                      scan p (length text - length rest - 1)%nat text'
                  end
      | None => match text with
                | [] => []
                | _ :: text' => scan p O text'
                end
      end
  end.

Definition findall (p : list item) (text : str) : list (list str) :=
  scan p O text.

(** ** [grouping.py] *)

(** A listing entry of the store: [{'Key': ..., 'Size': ...}]. The
    fields [Size_] and [size_] stand for ['Size'] and ['size']. *)
Record Summary : Type := {
  Key : str;
  Size_ : Z
}.

(** The dict built for every object whose key matches. *)
Record Object : Type := {
  object_key : str;
  topic : str;
  partition : Z;
  start_offset : Z;
  end_offset : Z;
  size_ : Z
}.

#[global] Instance Object_eq_dec : EqDecision Object.
Proof. solve_decision. Defined.

(** [r"/([.\w]+)_(\d+)_(\d+)-(\d+)\.jsonl\.gz$"] *)
Definition filename_re : list item :=
  [Lit "/"; Cap is_word_or_dot; Lit "_"; Cap is_digit; Lit "_";
   Cap is_digit; Lit "-"; Cap is_digit]
  ++ map Lit (txt ".jsonl.gz") ++ [Eos].

(** The body of the first loop of [grouped_object_summaries] up to the
    construction of the object: [None] when the key is skipped. The
    pattern has four groups, so each match is a 4-tuple. *)
Definition parsed (summary : Summary) : option Object :=
  let object_key := Key summary in
  let match_ := findall filename_re object_key in
  if negb (bool_decide (match_ = [])) && (length match_ =? 1)%nat then
    match findall filename_re object_key with
    | [topic; partition; start; end_] :: _ =>
        Some {| object_key := object_key;
                topic := topic;
                partition := int partition;
                start_offset := int start;
                end_offset := int end_;
                size_ := Size_ summary |}
    | _ => None
    end
  else None.

(** [sorted(keys, key=...)]: Python's sort is stable, so the result is
    the rearrangement in ascending key order that keeps members with
    equal keys in their order; it is computed here by insertion. *)
Fixpoint insert_by {A : Type} (key : A -> Z) (x : A) (l : list A) : list A :=
  match l with
  | [] => [x]
  | y :: l' => if key x <=? key y then x :: l else y :: insert_by key x l'
  end.

Definition sorted {A : Type} (l : list A) (key : A -> Z) : list A :=
  foldr (insert_by key) [] l.

(** [grouped[topic][partition].append(obj)], with the two
    [if ... not in ...] initialisations before it. *)
Definition append_object (grouped : gmap str (gmap Z (list Object)))
    (obj : Object) : gmap str (gmap Z (list Object)) :=
  let grouped :=
    match grouped !! topic obj with
    | None => <[topic obj := ∅]> grouped
    | Some _ => grouped
    end in
  let by_partition := default ∅ (grouped !! topic obj) in
  let by_partition :=
    match by_partition !! partition obj with
    | None => <[partition obj := []]> by_partition
    | Some _ => by_partition
    end in
  let keys := default [] (by_partition !! partition obj) in
  <[topic obj := <[partition obj := keys ++ [obj]]> by_partition]> grouped.

(** The first loop: every summary whose key matches is appended. *)
Definition collected (summaries : list Summary)
    : gmap str (gmap Z (list Object)) :=
  foldl (fun grouped summary =>
           match parsed summary with
           | Some obj => append_object grouped obj
           | None => grouped
           end) ∅ summaries.

Definition grouped_object_summaries (summaries : list Summary)
    : gmap str (gmap Z (list Object)) :=
  let grouped := collected summaries in
  (fun by_partition : gmap Z (list Object) =>
     (fun keys => sorted keys start_offset) <$> by_partition) <$> grouped.

(** The loop variables of [batched_object_summaries] for one
    partition: the batches appended so far and the running batch. *)
Record BatchState : Type := {
  emitted : list (list Object);
  current_batch : list Object;
  current_batch_size : Z;
  current_batch_count : Z
}.

Definition batch_start : BatchState :=
  {| emitted := []; current_batch := [];
     current_batch_size := 0; current_batch_count := 0 |}.

(** The body of [for obj in objects]. *)
Definition batch_step (max_size max_count : Z) (st : BatchState)
    (obj : Object) : BatchState :=
  let batch := current_batch st ++ [obj] in
  let batch_size := current_batch_size st + size_ obj in
  let batch_count := current_batch_count st + 1 in
  if (batch_size >=? max_size) || (batch_count >=? max_count) then
    {| emitted := emitted st ++ [batch]; current_batch := [];
       current_batch_size := 0; current_batch_count := 0 |}
  else
    {| emitted := emitted st; current_batch := batch;
       current_batch_size := batch_size; current_batch_count := batch_count |}.

Definition batch_loop (max_size max_count : Z) (objects : list Object)
    : BatchState :=
  foldl (batch_step max_size max_count) batch_start objects.

(** The batches of one partition: the loop, then the remainder. *)
Definition batched_partition (max_size max_count : Z)
    (objects : list Object) : list (list Object) :=
  let st := batch_loop max_size max_count objects in
  if (0 <? length (current_batch st))%nat
  then emitted st ++ [current_batch st]
  else emitted st.

(** [batches[topic][partition]] is built from [grouped[topic][partition]]
    alone, for every topic and partition of [grouped]. *)
Definition batched_object_summaries (max_size max_count : Z)
    (grouped : gmap str (gmap Z (list Object)))
    : gmap str (gmap Z (list (list Object))) :=
  (fun by_partition : gmap Z (list Object) =>
     batched_partition max_size max_count <$> by_partition) <$> grouped.

(** ** [main.py] *)

(** The exceptions of the model. *)
Inductive Raised : Type :=
  | ClientError
  | TypeError.

(** A computation over a state that returns a value or raises. *)
Section Exec.
Context {St : Type}.

Definition Exec (A : Type) : Type := St -> (Raised + A) * St.

Definition ret {A : Type} (a : A) : Exec A :=
  fun st => (inr a, st).

Definition bind {A B : Type} (m : Exec A) (f : A -> Exec B) : Exec B :=
  fun st =>
    match m st with
    | (inl e, st') => (inl e, st')
    | (inr a, st') => f a st'
    end.

(** [try: body / except ClientError: handler]; any other exception
    goes through. *)
Definition try_except {A : Type} (body handler : Exec A) : Exec A :=
  fun st =>
    match body st with
    | (inl ClientError, st') => handler st'
    | other => other
    end.

(** A list comprehension [[f(x) for x in l]]. *)
Fixpoint for_each {A B : Type} (f : A -> Exec B) (l : list A)
    : Exec (list B) :=
  match l with
  | [] => ret []
  | x :: l' =>
      bind (f x) (fun y => bind (for_each f l') (fun ys => ret (y :: ys)))
  end.
End Exec.

Notation "m >> k" := (bind m (fun _ => k))
  (at level 60, right associativity, only parsing).

(** The two requests the executor sends to the store, addressed by
    the bucket and the batch. *)
Inductive Call : Type :=
  | CoalesceBatch (bucket : str) (batch : list Object)
  | DeleteBatch (bucket : str) (batch : list Object).

(** The store completes a request or rejects it; a rejection reaches
    the caller as a [ClientError]. *)
Inductive Reply : Type :=
  | Completed
  | Rejected.

#[global] Instance Call_eq_dec : EqDecision Call.
Proof. solve_decision. Defined.

#[global] Instance Reply_eq_dec : EqDecision Reply.
Proof. solve_decision. Defined.

Definition is_coalesce (entry : Call * Reply) : bool :=
  match entry.1 with
  | CoalesceBatch _ _ => true
  | DeleteBatch _ _ => false
  end.

Definition is_rejected (entry : Call * Reply) : bool :=
  bool_decide (entry.2 = Rejected).

Section Executor.
Context {World : Type}.

(** The store ([utility.s3]): how it answers a request in a given
    state, and the state it is left in. *)
Variable store : World -> Call -> World * Reply.

(** The state of a run: the store, and the requests sent so far with
    their replies. *)
Record Run : Type := {
  world : World;
  sent : list (Call * Reply)
}.

Definition request (c : Call) : Exec (St := Run) unit :=
  fun st =>
    let '(w, reply) := store (world st) c in
    (match reply with
     | Completed => inr tt
     | Rejected => inl ClientError
     end,
     {| world := w; sent := sent st ++ [(c, reply)] |}).

Definition coalesce_batch (bucket : str) (batch : list Object)
    : Exec (St := Run) bool :=
  try_except
    ((if (1 <? length batch)%nat
      then request (CoalesceBatch bucket batch) >>
           request (DeleteBatch bucket batch)
      else ret tt) >>
     ret true)
    (ret false).

Definition coalesce_partition (bucket : str)
    (partition : list (list Object)) : Exec (St := Run) (list bool) :=
  for_each (coalesce_batch bucket) partition.

(** One task per partition of the topic. The pool runs the tasks side
    by side; here they are run one after the other, in the order of
    [map_to_list] and not in the insertion order of the dict, over one
    log of requests, and the result of each is what its future holds
    once [wait(futures)] returns. Only what does not depend on the
    order of the tasks or on how their requests interleave is stated
    of [coalesce_topic] and [coalesce_topics]; the order of requests
    is stated of [coalesce_partition], which one worker runs from its
    first batch to its last. *)
Definition coalesce_topic (bucket : str)
    (batched_topic : gmap Z (list (list Object)))
    : Exec (St := Run) (list (list bool)) :=
  for_each (fun entry => coalesce_partition bucket entry.2)
           (map_to_list batched_topic).

(** [results] of [main]. *)
Definition coalesce_topics (bucket : str)
    (batched : gmap str (gmap Z (list (list Object))))
    : Exec (St := Run) (list (list (list bool))) :=
  for_each (fun entry => coalesce_topic bucket entry.2)
           (map_to_list batched).
End Executor.

Arguments Run : clear implicits.

(** Modelled from the spec: [successful_result] is imported by
    [main.py] from [utility.grouping] but is not defined there. It
    reduces the outcomes of every batch of every partition of every
    topic to one boolean by logical AND, true when there is no batch. *)
Definition successful_result (results : list (list (list bool))) : bool :=
  forallb (forallb (forallb id)) results.

(** [exit(0 if successful_result(results) else 2)] *)
Definition exit_status (results : list (list (list bool))) : Z :=
  if successful_result results then 0 else 2.

(** The arguments [main] passes to [grouped_object_summaries]. *)
Inductive Argument : Type :=
  | Summaries (summaries : list Summary)
  | Partition (partition : option Z).

(** A call of [grouped_object_summaries(summaries)]: the function has
    one parameter, and a call with any other number of positional
    arguments raises [TypeError] before the body runs. *)
Definition call_grouped_object_summaries (args : list Argument)
    : Raised + gmap str (gmap Z (list Object)) :=
  match args with
  | [Summaries summaries] => inr (grouped_object_summaries summaries)
  | _ => inl TypeError
  end.

(** [grouped = grouped_object_summaries(summaries, args.partition)],
    where [args.partition] is [None] without the [-n] option. *)
Definition main_grouped (summaries : list Summary) (partition : option Z)
    : Raised + gmap str (gmap Z (list Object)) :=
  call_grouped_object_summaries [Summaries summaries; Partition partition].

(** * Vocabulary of the properties *)

(** The list kept under a topic and a partition, if any. *)
Definition at_partition {V : Type} (d : gmap str (gmap Z V))
    (t : str) (p : Z) : option V :=
  match d !! t with
  | Some by_partition => by_partition !! p
  | None => None
  end.

(** Total size of a batch. *)
Definition total_size (batch : list Object) : Z :=
  foldr (fun obj acc => size_ obj + acc) 0 batch.

(** What holds of the loop variables of the batcher after any number
    of records. *)
Record batch_inv (max_size max_count : Z) (objects : list Object)
    (st : BatchState) : Prop := {
  inv_concat : concat (emitted st) ++ current_batch st = objects;
  inv_size : current_batch_size st = total_size (current_batch st);
  inv_count : current_batch_count st = Z.of_nat (length (current_batch st));
  inv_emitted :
    Forall (fun batch =>
              batch <> [] /\
              (max_size <= total_size batch \/
               max_count <= Z.of_nat (length batch))) (emitted st);
  inv_open :
    current_batch st = [] \/
    (total_size (current_batch st) < max_size /\
     Z.of_nat (length (current_batch st)) < max_count)
}.

(** A record of size at least [max_size] is the last of the batch. *)
Definition closed_by_heavy (max_size : Z) (batch : list Object) : Prop :=
  forall before obj after,
    batch = before ++ obj :: after -> max_size <= size_ obj -> after = [].

(** The order of a sort key. *)
Definition key_le {A : Type} (key : A -> Z) (x y : A) : Prop :=
  key x <= key y.

(** The objects of the matching keys, in the order of the listing. *)
Definition parsed_objects (summaries : list Summary) : list Object :=
  omap parsed summaries.

(** Membership in the group of a topic and a partition. *)
Definition of_group (t : str) (p : Z) (obj : Object) : Prop :=
  topic obj = t /\ partition obj = p.

#[global] Instance of_group_dec t p obj : Decision (of_group t p obj).
Proof. unfold of_group. apply _. Defined.

(** What it means for a pattern to match a prefix of a text, with the
    groups it captures and the text it leaves. *)
Inductive matches : list item -> str -> list str -> str -> Prop :=
  | matches_nil text : matches [] text [] text
  | matches_lit c p text caps rest :
      matches p text caps rest ->
      matches (Lit c :: p) (c :: text) caps rest
  | matches_cap cls p w text caps rest :
      w <> [] ->
      Forall (fun c => cls c = true) w ->
      matches p text caps rest ->
      matches (Cap cls :: p) (w ++ text) (w :: caps) rest
  | matches_eos p text caps rest :
      at_end text = true ->
      matches p text caps rest ->
      matches (Eos :: p) text caps rest.

(** A stream name and an unsigned decimal number, as the pattern has
    them. *)
Definition is_name (w : str) : Prop :=
  w <> [] /\ Forall (fun c => is_word_or_dot c = true) w.

Definition is_number (w : str) : Prop :=
  w <> [] /\ Forall (fun c => is_digit c = true) w.

(** The text of an object name after its directory: the four fields,
    the suffix, and what is left of the key. *)
Definition file_name (t p st e rest : str) : str :=
  "/"%char :: t ++ "_"%char :: p ++ "_"%char :: st ++ "-"%char :: e
  ++ txt ".jsonl.gz" ++ rest.

(** The four fields with their separators. *)
Definition fields (t p st e : str) : str :=
  t ++ "_"%char :: p ++ "_"%char :: st ++ "-"%char :: e.

(** The characters of a decimal numeral of the standard library. *)
Definition chars (d : Decimal.uint) : str :=
  list_ascii_of_string (NilEmpty.string_of_uint d).

(** The decimal notation of a natural number, without leading zeros,
    as the standard library writes it. *)
Definition decimal (n : N) : str :=
  list_ascii_of_string (NilZero.string_of_uint (N.to_uint n)).

(** A numeral: the decimal notation of [n] after [zeros] zeros. *)
Definition numeral (zeros : nat) (n : N) : str :=
  replicate zeros "0"%char ++ decimal n.

(** Modelled from the spec: the naming grammar in the words of the
    design document, a key that ends with
    [/<stream_id>_<partition>_<start_offset>-<end_offset>.jsonl.gz]. *)
Definition naming_grammar (key : str) : Prop :=
  exists pre t p st e,
    key = pre ++ file_name t p st e [] /\
    is_name t /\ is_number p /\ is_number st /\ is_number e.

(** The coalesce requests among the requests sent. *)
Definition coalesced (new : list (Call * Reply)) : list Call :=
  map fst (List.filter is_coalesce new).

(** The batches the executor sends requests for. *)
Definition to_coalesce (bucket : str) (batches : list (list Object))
    : list Call :=
  map (CoalesceBatch bucket)
      (List.filter (fun batch => (1 <? length batch)%nat) batches).

(** All batches of a plan, in the order the executor takes them. *)
Definition all_batches (batched : gmap str (gmap Z (list (list Object))))
    : list (list Object) :=
  concat (map (fun topic_entry : str * gmap Z (list (list Object)) =>
                 concat (map snd (map_to_list topic_entry.2)))
              (map_to_list batched)).

(** A computation that never raises: it returns a value, sends the
    coalesce requests [att], and its value passes [okb] exactly when
    none of the requests it sent was rejected. *)
Definition contained {World A : Type} (m : Exec (St := Run World) A)
    (okb : A -> bool) (att : list Call) : Prop :=
  forall st, exists y st' new,
    m st = (inr y, st') /\
    sent st' = sent st ++ new /\
    okb y = negb (existsb is_rejected new) /\
    coalesced new = att.

(** ** Inputs of the instances *)

(** A record of a given start offset and size in partition 0 of
    topic [t]. *)
Definition record (start sz : Z) : Object :=
  {| object_key := []; topic := txt "t"; partition := 0;
     start_offset := start; end_offset := start; size_ := sz |}.

(** A listing with three objects of one group, out of offset order and
    two of them with the same start offset, an object of another
    partition and a key that does not match. *)
Definition listing : list Summary :=
  [ {| Key := txt "/t_0_5-6.jsonl.gz"; Size_ := 10 |};
    {| Key := txt "x/t_0_1-2.jsonl.gz"; Size_ := 20 |};
    {| Key := txt "/t_1_1-2.jsonl.gz"; Size_ := 30 |};
    {| Key := txt "/t_0_1-9.jsonl.gz"; Size_ := 40 |};
    {| Key := txt "unrelated"; Size_ := 50 |} ].

(** The group of topic [t] and partition 0 of that listing. *)
Definition listing_group : list Object :=
  [ {| object_key := txt "x/t_0_1-2.jsonl.gz"; topic := txt "t";
       partition := 0; start_offset := 1; end_offset := 2; size_ := 20 |};
    {| object_key := txt "/t_0_1-9.jsonl.gz"; topic := txt "t";
       partition := 0; start_offset := 1; end_offset := 9; size_ := 40 |};
    {| object_key := txt "/t_0_5-6.jsonl.gz"; topic := txt "t";
       partition := 0; start_offset := 5; end_offset := 6; size_ := 10 |} ].

(** A listing with one object in each of the partitions 0 and 1. *)
Definition two_partitions : list Summary :=
  [ {| Key := txt "/t_0_0-1.jsonl.gz"; Size_ := 1 |};
    {| Key := txt "/t_1_0-1.jsonl.gz"; Size_ := 1 |} ].

(** An object name followed by a newline, and the object made of it. *)
Definition newline_key : str := txt "/t_0_1-2.jsonl.gz" ++ ["010"%char].

Definition newline_object : Object :=
  {| object_key := newline_key; topic := txt "t"; partition := 0;
     start_offset := 1; end_offset := 2; size_ := 1 |}.

(** A store that completes every request. *)
Definition obliging_store (w : unit) (c : Call) : unit * Reply :=
  (w, Completed).

(** A store that rejects every delete request. *)
Definition no_delete_store (w : unit) (c : Call) : unit * Reply :=
  match c with
  | CoalesceBatch _ _ => (w, Completed)
  | DeleteBatch _ _ => (w, Rejected)
  end.

(** ** Vocabulary of the further properties *)

(** A state of the batcher with batches put before its emitted ones. *)
Definition with_emitted (before : list (list Object)) (st : BatchState)
    : BatchState :=
  {| emitted := before ++ emitted st;
     current_batch := current_batch st;
     current_batch_size := current_batch_size st;
     current_batch_count := current_batch_count st |}.

(** A batch that was below both bounds before its last record. *)
Definition tight (max_size max_count : Z) (batch : list Object) : Prop :=
  exists init last,
    batch = init ++ [last] /\
    (init = [] \/
     (total_size init < max_size /\ Z.of_nat (length init) < max_count)).

(** The requests of a run, batch by batch: a rejected coalesce alone,
    or a completed coalesce and then the delete of the same batch;
    only for batches of several records. *)
Inductive exchanges (bucket : str) : list (Call * Reply) -> Prop :=
  | exchanges_nil : exchanges bucket []
  | exchanges_rejected batch new :
      (1 < length batch)%nat ->
      exchanges bucket new ->
      exchanges bucket ((CoalesceBatch bucket batch, Rejected) :: new)
  | exchanges_both batch reply new :
      (1 < length batch)%nat ->
      exchanges bucket new ->
      exchanges bucket ((CoalesceBatch bucket batch, Completed)
                        :: (DeleteBatch bucket batch, reply) :: new).

(** The batches of the delete requests sent. *)
Definition deleted (new : list (Call * Reply)) : list (list Object) :=
  omap (fun entry : Call * Reply =>
          match entry.1 with
          | DeleteBatch _ batch => Some batch
          | CoalesceBatch _ _ => None
          end) new.

(** The batches of the coalesce requests the store completed. *)
Definition completed (new : list (Call * Reply)) : list (list Object) :=
  omap (fun entry : Call * Reply =>
          match entry with
          | (CoalesceBatch _ batch, Completed) => Some batch
          | _ => None
          end) new.

(** The batches of several records. *)
Definition large (batches : list (list Object)) : list (list Object) :=
  List.filter (fun batch => (1 <? length batch)%nat) batches.

(** A computation that never raises and whose requests satisfy [P]. *)
Definition sends {World A : Type} (P : list (Call * Reply) -> Prop)
    (m : Exec (St := Run World) A) : Prop :=
  forall st, exists y st' new,
    m st = (inr y, st') /\ sent st' = sent st ++ new /\ P new.

(** Every topic of a grouping has a partition. *)
Definition populated {V : Type} (d : gmap str (gmap Z V)) : Prop :=
  forall t by_partition,
    d !! t = Some by_partition -> exists p v, by_partition !! p = Some v.

(** The object of the first descriptor of [listing]. *)
Definition listing_first : Object :=
  {| object_key := txt "/t_0_5-6.jsonl.gz"; topic := txt "t";
     partition := 0; start_offset := 5; end_offset := 6; size_ := 10 |}.

(** The batches of [listing_group] under the bounds 50 and 10. *)
Definition listing_batches : list (list Object) :=
  batched_partition 50 10 listing_group.

(** * Properties *)

(** ** The batcher *)

Lemma total_size_app (l k : list Object) :
  total_size (l ++ k) = total_size l + total_size k.
Proof.
  induction l as [|obj l IH]; simpl; [reflexivity|].
  rewrite IH. lia.
Qed.

Lemma at_partition_fmap {V W : Type} (f : V -> W)
    (d : gmap str (gmap Z V)) (t : str) (p : Z) :
  at_partition ((fun by_partition : gmap Z V => f <$> by_partition) <$> d) t p
  = f <$> at_partition d t p.
Proof.
  unfold at_partition. rewrite lookup_fmap.
  destruct (d !! t) as [by_partition|]; simpl; [|reflexivity].
  apply lookup_fmap.
Qed.

Section Batcher.
Variables max_size max_count : Z.

Lemma batch_loop_snoc (objects : list Object) (obj : Object) :
  batch_loop max_size max_count (objects ++ [obj])
  = batch_step max_size max_count
      (batch_loop max_size max_count objects) obj.
Proof. unfold batch_loop. rewrite foldl_app. reflexivity. Qed.

Lemma batch_step_inv (objects : list Object) (st : BatchState)
    (obj : Object) :
  batch_inv max_size max_count objects st ->
  batch_inv max_size max_count (objects ++ [obj])
    (batch_step max_size max_count st obj).
Proof.
  intros [Hcat Hsize Hcount Hem Hopen]. unfold batch_step.
  destruct ((current_batch_size st + size_ obj >=? max_size)
            || (current_batch_count st + 1 >=? max_count)) eqn:Hclose.
  - constructor; simpl.
    + rewrite concat_app. simpl. rewrite !app_nil_r.
      rewrite <- Hcat, <- app_assoc. reflexivity.
    + reflexivity.
    + reflexivity.
    + apply Forall_app. split; [exact Hem|].
      constructor; [|constructor]. split.
      * destruct (current_batch st); discriminate.
      * rewrite total_size_app, length_app. simpl.
        apply orb_true_iff in Hclose. rewrite Hsize, Hcount in Hclose.
        destruct Hclose as [H|H]; [left|right]; lia.
    + left. reflexivity.
  - constructor; simpl.
    + rewrite <- Hcat, <- app_assoc. reflexivity.
    + rewrite total_size_app. simpl. lia.
    + rewrite length_app. simpl. lia.
    + exact Hem.
    + right. apply orb_false_iff in Hclose.
      rewrite total_size_app, length_app. simpl. lia.
Qed.

Lemma batch_loop_inv (objects : list Object) :
  batch_inv max_size max_count objects
    (batch_loop max_size max_count objects).
Proof.
  induction objects as [|obj objects IH] using rev_ind.
  - constructor; simpl; auto.
  - rewrite batch_loop_snoc. apply batch_step_inv, IH.
Qed.

(** With a positive count bound no batch exceeds it. *)
Lemma batch_loop_count (objects : list Object) :
  0 < max_count ->
  Forall (fun batch => Z.of_nat (length batch) <= max_count)
         (emitted (batch_loop max_size max_count objects)).
Proof.
  intros Hpos. induction objects as [|obj objects IH] using rev_ind.
  - constructor.
  - rewrite batch_loop_snoc. unfold batch_step.
    pose proof (batch_loop_inv objects) as [_ _ _ _ Hopen].
    destruct (_ || _); simpl; [|exact IH].
    apply Forall_app. split; [exact IH|].
    constructor; [|constructor]. rewrite length_app. simpl.
    destruct Hopen as [->|[_ H]]; simpl; lia.
Qed.

(** With sizes that are not negative, a record of size at least
    [max_size] is the last of an emitted batch and is never in the
    running batch, whose total is not negative. *)
Lemma batch_loop_heavy (objects : list Object) :
  Forall (fun obj => 0 <= size_ obj) objects ->
  let st := batch_loop max_size max_count objects in
  Forall (closed_by_heavy max_size) (emitted st)
  /\ Forall (fun obj => size_ obj < max_size) (current_batch st)
  /\ 0 <= total_size (current_batch st).
Proof.
  induction objects as [|obj objects IH] using rev_ind.
  - intros _. simpl. repeat split; [constructor|constructor|lia].
  - intros Hnn. apply Forall_app in Hnn as [Hnn Hobj].
    apply Forall_cons in Hobj as [Hobj _].
    specialize (IH Hnn). simpl in IH. destruct IH as (Hem & Hcur & Htot).
    rewrite batch_loop_snoc. unfold batch_step.
    pose proof (batch_loop_inv objects) as [_ Hsize _ _ _].
    set (st := batch_loop max_size max_count objects) in *.
    destruct ((current_batch_size st + size_ obj >=? max_size) || _)
      eqn:Hclose; simpl.
    + repeat split; [|constructor|lia].
      apply Forall_app. split; [exact Hem|].
      constructor; [|constructor].
      intros before x after Heq Hx.
      destruct after as [|y after] using rev_ind; [reflexivity|].
      clear IHafter. exfalso.
      change (before ++ x :: after ++ [y])
        with (before ++ (x :: after) ++ [y]) in Heq.
      rewrite app_assoc in Heq. apply app_inj_tail in Heq as [Heq _].
      rewrite Heq in Hcur. apply Forall_app in Hcur as [_ Hcur].
      apply Forall_cons in Hcur as [Hcur _]. lia.
    + apply orb_false_iff in Hclose as [Hclose _].
      repeat split.
      * exact Hem.
      * apply Forall_app. split; [exact Hcur|].
        constructor; [|constructor]. lia.
      * rewrite total_size_app. simpl. lia.
Qed.

(** The batches are the emitted ones, then the running one if it is
    not empty. *)
Lemma batched_partition_cases (objects : list Object) :
  let st := batch_loop max_size max_count objects in
  (current_batch st = [] /\
   batched_partition max_size max_count objects = emitted st)
  \/ (current_batch st <> [] /\
      batched_partition max_size max_count objects
      = emitted st ++ [current_batch st]).
Proof.
  simpl. unfold batched_partition.
  destruct (current_batch (batch_loop max_size max_count objects))
    as [|obj rest]; simpl; [left|right]; split; congruence.
Qed.

Lemma batched_partition_concat (objects : list Object) :
  concat (batched_partition max_size max_count objects) = objects.
Proof.
  pose proof (batch_loop_inv objects) as [Hcat _ _ _ _].
  destruct (batched_partition_cases objects) as [[Hnil ->]|[_ ->]].
  - rewrite Hnil, app_nil_r in Hcat. exact Hcat.
  - rewrite concat_app. simpl. rewrite app_nil_r. exact Hcat.
Qed.

Lemma batched_partition_nonempty (objects : list Object) :
  Forall (fun batch => batch <> []) (batched_partition max_size max_count objects).
Proof.
  pose proof (batch_loop_inv objects) as [_ _ _ Hem _].
  assert (Forall (fun batch : list Object => batch <> [])
            (emitted (batch_loop max_size max_count objects))) as Hne.
  { eapply Forall_impl; [exact Hem|]. intros batch [H _]. exact H. }
  destruct (batched_partition_cases objects) as [[_ ->]|[Hcur ->]].
  - exact Hne.
  - apply Forall_app. split; [exact Hne|].
    constructor; [exact Hcur|constructor].
Qed.

(** A batch that is not the last one was emitted inside the loop. *)
Lemma not_last_emitted (objects : list Object)
    (before : list (list Object)) (batch : list Object)
    (after : list (list Object)) :
  batched_partition max_size max_count objects = before ++ batch :: after ->
  after <> [] ->
  batch ∈ emitted (batch_loop max_size max_count objects).
Proof.
  intros Heq Hafter.
  destruct (batched_partition_cases objects) as [[_ H]|[_ H]];
    rewrite H in Heq; clear H.
  - rewrite Heq. apply elem_of_app. right. apply elem_of_cons. left.
    reflexivity.
  - destruct after as [|last after _] using rev_ind; [congruence|].
    change (before ++ batch :: after ++ [last])
      with (before ++ (batch :: after) ++ [last]) in Heq.
    rewrite app_assoc in Heq. apply app_inj_tail in Heq as [Heq _].
    rewrite Heq. apply elem_of_app. right. apply elem_of_cons. left.
    reflexivity.
Qed.
End Batcher.

(** ** Sorting *)

Section Sorting.
Context {A : Type} (key : A -> Z).

Lemma insert_by_perm (x : A) (l : list A) : insert_by key x l ≡ₚ x :: l.
Proof.
  induction l as [|y l IH]; simpl; [reflexivity|].
  destruct (key x <=? key y); [reflexivity|].
  rewrite IH. apply Permutation_swap.
Qed.

Lemma sorted_perm (l : list A) : sorted l key ≡ₚ l.
Proof.
  induction l as [|x l IH]; simpl; [reflexivity|].
  rewrite insert_by_perm, IH. reflexivity.
Qed.

Lemma insert_by_sorted (x : A) (l : list A) :
  StronglySorted (key_le key) l -> StronglySorted (key_le key) (insert_by key x l).
Proof.
  induction l as [|y l IH]; intros Hs; simpl.
  - constructor; constructor.
  - apply StronglySorted_inv in Hs as [Hl Hy].
    destruct (key x <=? key y) eqn:Hxy.
    + apply Z.leb_le in Hxy. constructor.
      * constructor; assumption.
      * constructor; [exact Hxy|].
        eapply Forall_impl; [exact Hy|].
        intros z Hz. unfold key_le in *. lia.
    + apply Z.leb_gt in Hxy. constructor; [apply IH, Hl|].
      rewrite insert_by_perm. constructor; [|exact Hy].
      unfold key_le. lia.
Qed.

Lemma sorted_sorted (l : list A) : StronglySorted (key_le key) (sorted l key).
Proof.
  induction l as [|x l IH]; simpl; [constructor|].
  apply insert_by_sorted, IH.
Qed.

(** Insertion passes only members with a smaller key, so the
    members with a given key keep their order. *)
Lemma insert_by_stable (k : Z) (x : A) (l : list A) :
  filter (fun y => key y = k) (insert_by key x l)
  = filter (fun y => key y = k) (x :: l).
Proof.
  induction l as [|y l IH]; simpl; [reflexivity|].
  destruct (key x <=? key y) eqn:Hxy; [reflexivity|].
  apply Z.leb_gt in Hxy.
  rewrite (filter_cons _ y), IH, !filter_cons.
  destruct (decide (key y = k)), (decide (key x = k));
    try reflexivity; lia.
Qed.

Lemma sorted_stable (k : Z) (l : list A) :
  filter (fun y => key y = k) (sorted l key)
  = filter (fun y => key y = k) l.
Proof.
  induction l as [|x l IH]; simpl; [reflexivity|].
  rewrite insert_by_stable, !filter_cons, IH. reflexivity.
Qed.
End Sorting.

(** ** The grouper *)

Lemma collected_foldl (summaries : list Summary)
    (grouped : gmap str (gmap Z (list Object))) :
  foldl (fun grouped summary =>
           match parsed summary with
           | Some obj => append_object grouped obj
           | None => grouped
           end) grouped summaries
  = foldl append_object grouped (parsed_objects summaries).
Proof.
  revert grouped. induction summaries as [|summary summaries IH];
    intros grouped; simpl; [reflexivity|].
  rewrite IH. unfold parsed_objects. simpl.
  destruct (parsed summary); reflexivity.
Qed.

Lemma at_partition_append (grouped : gmap str (gmap Z (list Object)))
    (obj : Object) (t : str) (p : Z) :
  at_partition (append_object grouped obj) t p
  = if decide (of_group t p obj)
    then Some (default [] (at_partition grouped t p) ++ [obj])
    else at_partition grouped t p.
Proof.
  unfold at_partition, append_object, of_group.
  destruct (decide (topic obj = t)) as [<-|Ht].
  - rewrite lookup_insert_eq.
    destruct (decide (partition obj = p)) as [<-|Hp].
    + rewrite lookup_insert_eq.
      rewrite decide_True by (split; reflexivity).
      destruct (grouped !! topic obj) as [by_partition|] eqn:Hg; simpl.
      * rewrite Hg. simpl.
        destruct (by_partition !! partition obj) eqn:Hb; simpl.
        -- rewrite Hb. reflexivity.
        -- rewrite lookup_insert_eq. reflexivity.
      * rewrite lookup_insert_eq. simpl. rewrite lookup_empty.
        rewrite lookup_insert_eq. reflexivity.
    + rewrite lookup_insert_ne by exact Hp.
      rewrite decide_False by (intros [_ H]; contradiction).
      destruct (grouped !! topic obj) as [by_partition|] eqn:Hg; simpl.
      * rewrite Hg. simpl.
        destruct (by_partition !! partition obj) eqn:Hb; simpl;
          [reflexivity|].
        rewrite lookup_insert_ne by exact Hp. reflexivity.
      * rewrite lookup_insert_eq. simpl. rewrite lookup_empty.
        rewrite lookup_insert_ne by exact Hp. apply lookup_empty.
  - rewrite lookup_insert_ne by exact Ht.
    rewrite decide_False by (intros [H _]; contradiction).
    destruct (grouped !! topic obj); [reflexivity|].
    rewrite lookup_insert_ne by exact Ht. reflexivity.
Qed.

(** The list kept for a group is the sublist of its objects, in the
    order of the listing; a group without objects has no entry. *)
Lemma at_partition_foldl (objs : list Object) (t : str) (p : Z) :
  at_partition (foldl append_object ∅ objs) t p
  = match filter (of_group t p) objs with
    | [] => None
    | group => Some group
    end.
Proof.
  induction objs as [|obj objs IH] using rev_ind.
  - simpl. unfold at_partition. rewrite lookup_empty. reflexivity.
  - rewrite foldl_app. simpl. rewrite at_partition_append, IH.
    rewrite filter_app, filter_cons, filter_nil.
    destruct (decide (of_group t p obj)).
    + destruct (filter (of_group t p) objs) as [|x group]; simpl;
        reflexivity.
    + rewrite app_nil_r. reflexivity.
Qed.

Lemma at_partition_collected (summaries : list Summary) (t : str) (p : Z) :
  at_partition (collected summaries) t p
  = match filter (of_group t p) (parsed_objects summaries) with
    | [] => None
    | group => Some group
    end.
Proof.
  unfold collected. rewrite collected_foldl. apply at_partition_foldl.
Qed.

Lemma at_partition_grouped (summaries : list Summary) (t : str) (p : Z)
    (objects : list Object) :
  at_partition (grouped_object_summaries summaries) t p = Some objects ->
  objects = sorted (filter (of_group t p) (parsed_objects summaries))
                   start_offset
  /\ filter (of_group t p) (parsed_objects summaries) <> [].
Proof.
  unfold grouped_object_summaries.
  rewrite (at_partition_fmap (fun keys => sorted keys start_offset)).
  rewrite at_partition_collected.
  destruct (filter (of_group t p) (parsed_objects summaries)) as [|x group];
    simpl; [discriminate|].
  intros [= <-]. split; [reflexivity|discriminate].
Qed.

(** ** The pattern matcher *)

Lemma first_some_sound {R : Type} (f : nat -> option R) (n : nat) (r : R) :
  first_some f n = Some r -> exists k, (1 <= k <= n)%nat /\ f k = Some r.
Proof.
  induction n as [|n IH]; simpl; [discriminate|].
  destruct (f (S n)) as [r'|] eqn:Hf.
  - intros [= <-]. exists (S n). split; [lia|exact Hf].
  - intros H. destruct (IH H) as (k & Hk & Hfk).
    exists k. split; [lia|exact Hfk].
Qed.

Lemma first_some_complete {R : Type} (f : nat -> option R) (n k : nat) :
  (1 <= k <= n)%nat -> is_Some (f k) -> is_Some (first_some f n).
Proof.
  induction n as [|n IH]; intros Hk Hf; [lia|]. simpl.
  destruct (f (S n)) as [r|] eqn:Hn; [eauto|].
  apply IH; [|exact Hf].
  destruct (decide (k = S n)) as [->|]; [|lia].
  rewrite Hn in Hf. destruct Hf as [? [=]].
Qed.

Lemma run_length_take (cls : ascii -> bool) (text : str) (k : nat) :
  (k <= run_length cls text)%nat ->
  Forall (fun c => cls c = true) (take k text) /\ length (take k text) = k.
Proof.
  revert k. induction text as [|c text IH]; intros k Hk; simpl in Hk.
  - assert (k = O) as -> by lia. split; [constructor|reflexivity].
  - destruct k as [|k]; [split; [constructor|reflexivity]|].
    destruct (cls c) eqn:Hc; [|lia].
    destruct (IH k) as [Hall Hlen]; [lia|]. simpl.
    split; [constructor; assumption|congruence].
Qed.

Lemma run_length_app (cls : ascii -> bool) (w text : str) :
  Forall (fun c => cls c = true) w ->
  (length w <= run_length cls (w ++ text))%nat.
Proof.
  induction 1 as [|c w Hc _ IH]; simpl; [lia|].
  rewrite Hc. lia.
Qed.

Lemma match_here_sound (p : list item) (text : str) (caps : list str)
    (rest : str) :
  match_here p text = Some (caps, rest) -> matches p text caps rest.
Proof.
  revert text caps rest.
  induction p as [|[c|cls|] p IH]; intros text caps rest; simpl.
  - intros [= <- <-]. constructor.
  - destruct text as [|c' text]; [discriminate|].
    case_bool_decide; [|discriminate]. subst c'.
    intros H. constructor. apply IH, H.
  - intros H. apply first_some_sound in H as (k & Hk & H).
    destruct (match_here p (drop k text)) as [[caps' rest']|] eqn:Hm;
      [|discriminate].
    injection H as <- <-.
    destruct (run_length_take cls text k) as [Hall Hlen]; [lia|].
    rewrite <- (take_drop k text) at 1.
    constructor; [|exact Hall|apply IH, Hm].
    intros Hnil. rewrite Hnil in Hlen. simpl in Hlen. lia.
  - destruct (at_end text) eqn:He; [|discriminate].
    intros H. constructor; [exact He|apply IH, H].
Qed.

Lemma match_here_complete (p : list item) (text : str) (caps : list str)
    (rest : str) :
  matches p text caps rest -> is_Some (match_here p text).
Proof.
  induction 1 as [text|c p text caps rest _ IH
                 |cls p w text caps rest Hw Hall _ IH
                 |p text caps rest He _ IH]; simpl.
  - eauto.
  - rewrite bool_decide_eq_true_2 by reflexivity. exact IH.
  - apply (first_some_complete _ _ (length w)).
    + split; [destruct w; [congruence|simpl; lia]|].
      apply run_length_app, Hall.
    + rewrite drop_app_length. destruct IH as [[caps' rest'] ->]. eauto.
  - rewrite He. exact IH.
Qed.

Lemma matches_filename_re (text : str) (caps : list str) (rest : str) :
  matches filename_re text caps rest <->
  exists t p st e,
    caps = [t; p; st; e] /\ text = file_name t p st e rest /\
    at_end rest = true /\
    is_name t /\ is_number p /\ is_number st /\ is_number e.
Proof.
  unfold filename_re, file_name, is_name, is_number. simpl. split.
  - intros H.
    repeat match goal with
           | H : matches (_ :: _) _ _ _ |- _ => inversion H; subst; clear H
           end.
    match goal with
    | H : matches [] _ _ _ |- _ => inversion H; subst; clear H
    end.
    eexists _, _, _, _. repeat split; eauto.
  - intros (t & p & st & e & -> & -> & He & [? ?] & [? ?] & [? ?] & [? ?]).
    repeat first [ apply matches_lit
                 | apply matches_cap; [assumption|assumption|]
                 | apply matches_eos; [assumption|]
                 | apply matches_nil ].
Qed.

(** A text splits in one way only at a separator followed by
    characters of a class the separator is not in. *)
Lemma split_at_separator (cls : ascii -> bool) (l1 l2 r1 r2 : str)
    (c1 c2 : ascii) :
  l1 ++ c1 :: r1 = l2 ++ c2 :: r2 ->
  Forall (fun c => cls c = true) r1 -> Forall (fun c => cls c = true) r2 ->
  cls c1 = false -> cls c2 = false ->
  l1 = l2 /\ r1 = r2.
Proof.
  revert r2. induction r1 as [|x r1 IH] using rev_ind;
    intros r2 Heq H1 H2 Hc1 Hc2;
    destruct r2 as [|y r2 _] using rev_ind.
  - apply app_inj_tail in Heq as [-> _]. split; reflexivity.
  - change (l2 ++ c2 :: r2 ++ [y]) with (l2 ++ (c2 :: r2) ++ [y]) in Heq.
    rewrite app_assoc in Heq. apply app_inj_tail in Heq as [_ ->].
    apply Forall_app in H2 as [_ H2]. apply Forall_cons in H2 as [H2 _].
    congruence.
  - change (l1 ++ c1 :: r1 ++ [x]) with (l1 ++ (c1 :: r1) ++ [x]) in Heq.
    rewrite app_assoc in Heq. apply app_inj_tail in Heq as [_ <-].
    apply Forall_app in H1 as [_ H1]. apply Forall_cons in H1 as [H1 _].
    congruence.
  - change (l1 ++ c1 :: r1 ++ [x]) with (l1 ++ (c1 :: r1) ++ [x]) in Heq.
    change (l2 ++ c2 :: r2 ++ [y]) with (l2 ++ (c2 :: r2) ++ [y]) in Heq.
    rewrite !app_assoc in Heq. apply app_inj_tail in Heq as [Heq ->].
    apply Forall_app in H1 as [H1 _]. apply Forall_app in H2 as [H2 _].
    destruct (IH r2 Heq H1 H2 Hc1 Hc2) as [-> ->]. split; reflexivity.
Qed.

Lemma at_end_cases (rest : str) :
  at_end rest = true -> rest = [] \/ rest = ["010"%char].
Proof.
  destruct rest as [|c [|c' rest]]; simpl; [auto| |discriminate].
  case_bool_decide; [subst; auto|discriminate].
Qed.

Lemma file_name_fields (t p st e rest : str) :
  file_name t p st e rest
  = "/"%char :: fields t p st e ++ txt ".jsonl.gz" ++ rest.
Proof.
  unfold file_name, fields. f_equal.
  repeat (rewrite <- app_assoc; simpl). reflexivity.
Qed.

(** The fields of an object name are determined by the text. *)
Lemma file_name_inj (t p st e rest t' p' st' e' rest' : str) :
  file_name t p st e rest = file_name t' p' st' e' rest' ->
  at_end rest = true -> at_end rest' = true ->
  is_name t -> is_number p -> is_number st -> is_number e ->
  is_name t' -> is_number p' -> is_number st' -> is_number e' ->
  t = t' /\ p = p' /\ st = st' /\ e = e' /\ rest = rest'.
Proof.
  rewrite !file_name_fields.
  intros Heq Hr Hr' [_ Ht] [_ Hp] [_ Hst] [_ He] [_ Ht'] [_ Hp'] [_ Hst']
         [_ He'].
  injection Heq as Heq.
  assert (rest = rest' /\ fields t p st e = fields t' p' st' e')
    as [-> Heq'].
  { apply at_end_cases in Hr as [->| ->];
      apply at_end_cases in Hr' as [->| ->].
    - apply app_inv_tail in Heq. auto.
    - exfalso. apply (f_equal (@rev ascii)) in Heq.
      rewrite !rev_app_distr in Heq. simpl in Heq. discriminate.
    - exfalso. apply (f_equal (@rev ascii)) in Heq.
      rewrite !rev_app_distr in Heq. simpl in Heq. discriminate.
    - apply app_inv_tail in Heq. auto. }
  clear Heq. unfold fields in Heq'.
  rewrite !(app_comm_cons _ _ "_"%char), !app_assoc in Heq'.
  apply (split_at_separator is_digit) in Heq' as [Heq' ->];
    [|assumption|assumption|reflexivity|reflexivity].
  apply (split_at_separator is_digit) in Heq' as [Heq' ->];
    [|assumption|assumption|reflexivity|reflexivity].
  apply (split_at_separator is_digit) in Heq' as [-> ->];
    [|assumption|assumption|reflexivity|reflexivity].
  repeat split; reflexivity.
Qed.

Lemma match_here_file_name (t p st e rest : str) :
  at_end rest = true ->
  is_name t -> is_number p -> is_number st -> is_number e ->
  match_here filename_re (file_name t p st e rest)
  = Some ([t; p; st; e], rest).
Proof.
  intros Hr Ht Hp Hst He.
  destruct (match_here_complete filename_re (file_name t p st e rest)
              [t; p; st; e] rest) as [[caps' rest'] Hm].
  { apply matches_filename_re. eexists _, _, _, _. eauto 10. }
  rewrite Hm. apply match_here_sound, matches_filename_re in Hm.
  destruct Hm as (t' & p' & st' & e' & -> & Heq & Hr' & Ht' & Hp' & Hst' & He').
  apply file_name_inj in Heq as (-> & -> & -> & -> & ->); auto.
Qed.

Lemma not_in_class (cls : ascii -> bool) (w : str) (x : ascii) :
  Forall (fun c => cls c = true) w -> cls x = false -> x ∉ w.
Proof.
  intros Hall Hx Hin. rewrite Forall_forall in Hall.
  specialize (Hall x Hin). congruence.
Qed.

(** A match holds one slash, its first character. *)
Lemma match_here_slash (c : ascii) (text : str) :
  "/"%char ∈ text -> match_here filename_re (c :: text) = None.
Proof.
  intros Hin.
  destruct (match_here filename_re (c :: text)) as [[caps rest]|] eqn:Hm;
    [|reflexivity].
  exfalso. apply match_here_sound, matches_filename_re in Hm.
  destruct Hm as (t & p & st & e & _ & Heq & Hr & [_ Ht] & [_ Hp] & [_ Hst]
                  & [_ He]).
  unfold file_name in Heq. injection Heq as _ ->. simpl in Hin.
  repeat match goal with
         | H : _ ∈ _ ++ _ |- _ => apply elem_of_app in H as [H|H]
         | H : _ ∈ _ :: _ |- _ =>
             apply elem_of_cons in H as [H|H]; [discriminate|]
         end.
  - exact (not_in_class is_word_or_dot t "/"%char Ht eq_refl Hin).
  - exact (not_in_class is_digit p "/"%char Hp eq_refl Hin).
  - exact (not_in_class is_digit st "/"%char Hst eq_refl Hin).
  - exact (not_in_class is_digit e "/"%char He eq_refl Hin).
  - apply at_end_cases in Hr as [->| ->].
    + inversion Hin.
    + apply list_elem_of_singleton in Hin. discriminate.
Qed.

Lemma scan_prefix (pre tail : str) :
  scan filename_re O (pre ++ "/"%char :: tail)
  = scan filename_re O ("/"%char :: tail).
Proof.
  induction pre as [|c pre IH]; [reflexivity|].
  change ((c :: pre) ++ "/"%char :: tail)
    with (c :: (pre ++ "/"%char :: tail)).
  assert (match_here filename_re (c :: (pre ++ "/"%char :: tail)) = None)
    as Hnone.
  { apply match_here_slash. apply elem_of_app. right.
    apply elem_of_cons. left. reflexivity. }
  unfold scan at 1. fold scan. rewrite Hnone. exact IH.
Qed.

Lemma scan_skip (p : list item) (passed text : str) :
  scan p (length passed) (passed ++ text) = scan p O text.
Proof.
  induction passed as [|c passed IH]; [reflexivity|].
  simpl. exact IH.
Qed.

(** A key made of a directory and an object name has one match, with
    the four fields of the name. *)
Lemma findall_file_name (pre t p st e rest : str) :
  at_end rest = true ->
  is_name t -> is_number p -> is_number st -> is_number e ->
  findall filename_re (pre ++ file_name t p st e rest) = [[t; p; st; e]].
Proof.
  intros Hr Ht Hp Hst He. unfold findall.
  pose proof (match_here_file_name t p st e rest Hr Ht Hp Hst He) as Hm.
  rewrite file_name_fields in *. rewrite scan_prefix.
  unfold scan at 1. fold scan. rewrite Hm. f_equal.
  replace (length ("/"%char :: fields t p st e ++ txt ".jsonl.gz" ++ rest)
           - length rest - 1)%nat
    with (length (fields t p st e ++ txt ".jsonl.gz")).
  - rewrite app_assoc, scan_skip.
    apply at_end_cases in Hr as [->| ->]; reflexivity.
  - simpl. rewrite !length_app. simpl. lia.
Qed.

Lemma parsed_file_name (pre t p st e rest : str) (sz : Z) :
  at_end rest = true ->
  is_name t -> is_number p -> is_number st -> is_number e ->
  parsed {| Key := pre ++ file_name t p st e rest; Size_ := sz |}
  = Some {| object_key := pre ++ file_name t p st e rest;
            topic := t;
            partition := int p;
            start_offset := int st;
            end_offset := int e;
            size_ := sz |}.
Proof.
  intros Hr Ht Hp Hst He. unfold parsed. simpl.
  rewrite (findall_file_name pre t p st e rest Hr Ht Hp Hst He).
  reflexivity.
Qed.

(** ** The executor *)

Lemma coalesced_app (new1 new2 : list (Call * Reply)) :
  coalesced (new1 ++ new2) = coalesced new1 ++ coalesced new2.
Proof. unfold coalesced. rewrite List.filter_app, map_app. reflexivity. Qed.

Lemma to_coalesce_app (bucket : str) (l k : list (list Object)) :
  to_coalesce bucket (l ++ k) = to_coalesce bucket l ++ to_coalesce bucket k.
Proof. unfold to_coalesce. rewrite List.filter_app, map_app. reflexivity. Qed.

Section ExecutorProperties.
Context {World : Type}.
Variable store : World -> Call -> World * Reply.

Lemma for_each_contained {A B : Type}
    (f : A -> Exec (St := Run World) B) (okb : B -> bool)
    (att : A -> list Call) (l : list A) :
  (forall x, contained (f x) okb (att x)) ->
  contained (for_each f l) (forallb okb) (concat (map att l)).
Proof.
  intros Hf. induction l as [|x l IH]; intros st.
  - exists [], st, []. simpl. rewrite app_nil_r. auto.
  - destruct (Hf x st) as (y & st1 & new1 & Hrun1 & Hsent1 & Hok1 & Hatt1).
    destruct (IH st1) as (ys & st2 & new2 & Hrun2 & Hsent2 & Hok2 & Hatt2).
    exists (y :: ys), st2, (new1 ++ new2).
    simpl. unfold bind at 1. rewrite Hrun1.
    unfold bind at 1. rewrite Hrun2. unfold ret.
    repeat split.
    + rewrite Hsent2, Hsent1, app_assoc. reflexivity.
    + rewrite Hok1, Hok2, existsb_app, negb_orb. reflexivity.
    + rewrite coalesced_app, Hatt1, Hatt2. reflexivity.
Qed.

Lemma for_each_length {A B : Type} (f : A -> Exec (St := Run World) B)
    (l : list A) (st st' : Run World) (ys : list B) :
  for_each f l st = (inr ys, st') -> length ys = length l.
Proof.
  revert st st' ys. induction l as [|x l IH]; intros st st' ys; simpl.
  - intros [= <- _]. reflexivity.
  - unfold bind at 1. destruct (f x st) as [[e|y] st1]; [discriminate|].
    unfold bind at 1.
    destruct (for_each f l st1) as [[e|ys'] st2] eqn:Hl; [discriminate|].
    intros [= <- _]. simpl. f_equal. eapply IH, Hl.
Qed.

(** A batch of at most one record: success, nothing sent. *)
Lemma coalesce_batch_small (bucket : str) (batch : list Object)
    (st : Run World) :
  (length batch <= 1)%nat ->
  coalesce_batch store bucket batch st = (inr true, st).
Proof.
  intros Hlen. unfold coalesce_batch, try_except, bind.
  destruct (1 <? length batch)%nat eqn:H; [|reflexivity].
  apply Nat.ltb_lt in H. lia.
Qed.

(** A batch of several records: coalesce, then delete unless the
    coalesce was rejected; success when both completed. *)
Lemma coalesce_batch_large (bucket : str) (batch : list Object)
    (st : Run World) :
  (1 < length batch)%nat ->
  coalesce_batch store bucket batch st
  = let (w1, r1) := store (world st) (CoalesceBatch bucket batch) in
    match r1 with
    | Rejected =>
        (inr false,
         {| world := w1;
            sent := sent st ++ [(CoalesceBatch bucket batch, Rejected)] |})
    | Completed =>
        let (w2, r2) := store w1 (DeleteBatch bucket batch) in
        (inr (bool_decide (r2 = Completed)),
         {| world := w2;
            sent := (sent st ++ [(CoalesceBatch bucket batch, Completed)])
                    ++ [(DeleteBatch bucket batch, r2)] |})
    end.
Proof.
  intros Hlen. unfold coalesce_batch, try_except, bind, request.
  apply Nat.ltb_lt in Hlen. rewrite Hlen.
  destruct (store (world st) (CoalesceBatch bucket batch)) as [w1 [|]];
    simpl; [|reflexivity].
  destruct (store w1 (DeleteBatch bucket batch)) as [w2 [|]]; reflexivity.
Qed.

Lemma coalesce_batch_contained (bucket : str) (batch : list Object) :
  contained (coalesce_batch store bucket batch) id
            (to_coalesce bucket [batch]).
Proof.
  intros st. unfold to_coalesce. simpl.
  destruct (1 <? length batch)%nat eqn:Hlen.
  - apply Nat.ltb_lt in Hlen.
    rewrite (coalesce_batch_large bucket batch st Hlen).
    destruct (store (world st) (CoalesceBatch bucket batch)) as [w1 [|]].
    + destruct (store w1 (DeleteBatch bucket batch)) as [w2 r2].
      eexists _, _, [(CoalesceBatch bucket batch, Completed);
                     (DeleteBatch bucket batch, r2)].
      split; [reflexivity|]. simpl. rewrite <- app_assoc.
      repeat split. destruct r2; reflexivity.
    + eexists _, _, [(CoalesceBatch bucket batch, Rejected)].
      split; [reflexivity|]. simpl. repeat split.
  - apply Nat.ltb_ge in Hlen.
    rewrite (coalesce_batch_small bucket batch st Hlen).
    exists true, st, []. rewrite app_nil_r. repeat split.
Qed.

Lemma coalesce_partition_contained (bucket : str)
    (partition : list (list Object)) :
  contained (coalesce_partition store bucket partition) (forallb id)
            (to_coalesce bucket partition).
Proof.
  unfold coalesce_partition.
  replace (to_coalesce bucket partition)
    with (concat (map (fun batch => to_coalesce bucket [batch]) partition)).
  - apply for_each_contained. intros batch.
    apply coalesce_batch_contained.
  - induction partition as [|batch partition IH]; [reflexivity|].
    simpl. rewrite IH.
    change (batch :: partition) with ([batch] ++ partition).
    rewrite to_coalesce_app. reflexivity.
Qed.

Lemma coalesce_topic_contained (bucket : str)
    (batched_topic : gmap Z (list (list Object))) :
  contained (coalesce_topic store bucket batched_topic)
            (forallb (forallb id))
            (to_coalesce bucket
               (concat (map snd (map_to_list batched_topic)))).
Proof.
  unfold coalesce_topic.
  replace (to_coalesce bucket (concat (map snd (map_to_list batched_topic))))
    with (concat (map (fun entry : Z * list (list Object) =>
                         to_coalesce bucket entry.2)
                      (map_to_list batched_topic))).
  - apply for_each_contained. intros entry.
    apply coalesce_partition_contained.
  - induction (map_to_list batched_topic) as [|entry l IH];
      [reflexivity|].
    simpl. rewrite IH, to_coalesce_app. reflexivity.
Qed.

Lemma coalesce_topics_contained (bucket : str)
    (batched : gmap str (gmap Z (list (list Object)))) :
  contained (coalesce_topics store bucket batched) successful_result
            (to_coalesce bucket (all_batches batched)).
Proof.
  unfold coalesce_topics, all_batches, successful_result.
  replace (to_coalesce bucket _)
    with (concat (map (fun entry : str * gmap Z (list (list Object)) =>
                         to_coalesce bucket
                           (concat (map snd (map_to_list entry.2))))
                      (map_to_list batched))).
  - apply for_each_contained. intros entry.
    apply coalesce_topic_contained.
  - induction (map_to_list batched) as [|entry l IH]; [reflexivity|].
    simpl. rewrite IH, to_coalesce_app. reflexivity.
Qed.

(** The outcome at a position of a partition is the outcome of that
    batch, run in the state the earlier batches leave. *)
Lemma coalesce_partition_lookup (bucket : str)
    (partition : list (list Object)) (st : Run World) (i : nat)
    (batch : list Object) :
  partition !! i = Some batch ->
  exists oks st',
    coalesce_partition store bucket partition st = (inr oks, st') /\
    inr <$> oks !! i
    = Some (coalesce_batch store bucket batch
              (coalesce_partition store bucket (take i partition) st).2).1.
Proof.
  revert st i. induction partition as [|b partition IH]; intros st i Hi.
  - rewrite lookup_nil in Hi. discriminate.
  - destruct (coalesce_batch_contained bucket b st)
      as (ok & st1 & new & Hrun & _).
    destruct i as [|i]; simpl in Hi.
    + injection Hi as ->.
      destruct (coalesce_partition_contained bucket partition st1)
        as (oks & st2 & new2 & Hrun2 & _).
      exists (ok :: oks), st2. unfold coalesce_partition in *. simpl.
      unfold bind at 1. rewrite Hrun. unfold bind at 1. rewrite Hrun2.
      split; reflexivity.
    + destruct (IH st1 i Hi) as (oks & st2 & Hrun2 & Hlook).
      exists (ok :: oks), st2. unfold coalesce_partition in *. simpl.
      unfold bind at 1. rewrite Hrun. unfold bind at 1. rewrite Hrun2.
      split; [reflexivity|]. simpl. rewrite Hlook.
      unfold bind at 1. rewrite Hrun.
      destruct (coalesce_partition_contained bucket (take i partition) st1)
        as (oks' & st3 & new3 & Hrun3 & _).
      unfold coalesce_partition in Hrun3.
      unfold bind at 1. rewrite Hrun3. reflexivity.
Qed.
End ExecutorProperties.

(** * The claims *)

(** ** Result of a run *)

(** C1. The result of a run is the logical AND of the outcomes of all
    batches of all partitions of all topics: it is true exactly when
    every outcome is true, so also when no batch was produced; the
    exit status is 0 exactly when the result is true, and the non-zero
    status 2 otherwise. *)
Theorem run_result_is_conjunction (results : list (list (list bool))) :
  (successful_result results = true <->
   Forall (fun ok => ok = true) (concat (concat results)))
  /\ (concat (concat results) = [] -> successful_result results = true)
  /\ (exit_status results = 0 <-> successful_result results = true)
  /\ (successful_result results = false -> exit_status results = 2)
  /\ (exit_status results = 0 \/ exit_status results = 2).
Proof.
  assert (successful_result results = true <->
          Forall (fun ok => ok = true) (concat (concat results))) as Hiff.
  { unfold successful_result.
    induction results as [|topic_results results IH]; simpl.
    - split; [constructor|reflexivity].
    - rewrite andb_true_iff, IH, concat_app, Forall_app.
      apply and_iff_compat_r.
      induction topic_results as [|outcomes topic_results IHt]; simpl.
      + split; [constructor|reflexivity].
      + rewrite andb_true_iff, IHt, Forall_app.
        apply and_iff_compat_r.
        induction outcomes as [|ok outcomes IHo]; simpl.
        * split; [constructor|reflexivity].
        * rewrite andb_true_iff, IHo, Forall_cons. reflexivity. }
  split; [exact Hiff|].
  split; [intros Hnil; apply Hiff; rewrite Hnil; constructor|].
  unfold exit_status.
  destruct (successful_result results); repeat split; auto; discriminate.
Qed.

(** ** Batcher *)

(** C2. With positive bounds, every batch of a group that is not the
    last one reached [max_size] in total size or [max_count] in count
    when it was closed, no batch has more than [max_count] records,
    and a running batch left non-empty after the last record is
    emitted as the last batch, below both bounds. *)
Theorem batches_respect_bounds (max_size max_count : Z)
    (objects : list Object) :
  0 < max_size -> 0 < max_count ->
  let batches := batched_partition max_size max_count objects in
  let st := batch_loop max_size max_count objects in
  (forall before batch after,
      batches = before ++ batch :: after -> after <> [] ->
      max_size <= total_size batch \/ max_count <= Z.of_nat (length batch))
  /\ Forall (fun batch => Z.of_nat (length batch) <= max_count) batches
  /\ (current_batch st <> [] ->
      batches = emitted st ++ [current_batch st] /\
      total_size (current_batch st) < max_size /\
      Z.of_nat (length (current_batch st)) < max_count).
Proof.
  intros Hsize Hcount. simpl.
  pose proof (batch_loop_inv max_size max_count objects)
    as [_ _ _ Hem Hopen].
  pose proof (batch_loop_count max_size max_count objects Hcount) as Hle.
  split; [|split].
  - intros before batch after Heq Hafter.
    pose proof (not_last_emitted _ _ _ _ _ _ Heq Hafter) as Hin.
    rewrite Forall_forall in Hem. destruct (Hem batch Hin) as [_ H].
    exact H.
  - destruct (batched_partition_cases max_size max_count objects)
      as [[_ ->]|[Hcur ->]]; [exact Hle|].
    apply Forall_app. split; [exact Hle|].
    constructor; [|constructor].
    destruct Hopen as [H|[_ H]]; [contradiction|lia].
  - intros Hcur.
    destruct (batched_partition_cases max_size max_count objects)
      as [[H _]|[_ ->]]; [contradiction|].
    destruct Hopen as [H|H]; [contradiction|]. auto.
Qed.

(** C3. The batches of a group, concatenated in order, are the records
    of the group, once each and in their order; every batch is
    non-empty; a batch holds records of one group only, and for the
    groups the grouper builds these are records of one topic and one
    partition. *)
Theorem batches_partition_the_group (max_size max_count : Z)
    (grouped : gmap str (gmap Z (list Object))) (t : str) (p : Z)
    (objects : list Object) :
  at_partition grouped t p = Some objects ->
  exists batches,
    at_partition (batched_object_summaries max_size max_count grouped) t p
    = Some batches
    /\ concat batches = objects
    /\ Forall (fun batch => batch <> []) batches
    /\ (forall summaries,
           grouped = grouped_object_summaries summaries ->
           Forall (Forall (of_group t p)) batches).
Proof.
  intros Hgroup. exists (batched_partition max_size max_count objects).
  split; [|split; [|split]].
  - unfold batched_object_summaries.
    rewrite (at_partition_fmap (batched_partition max_size max_count)).
    rewrite Hgroup. reflexivity.
  - apply batched_partition_concat.
  - apply batched_partition_nonempty.
  - intros summaries ->.
    apply at_partition_grouped in Hgroup as [Hobjects _].
    assert (Forall (of_group t p) objects) as Hall.
    { rewrite Hobjects, sorted_perm. apply Forall_forall.
      intros obj Hin. apply list_elem_of_filter in Hin as [H _]. exact H. }
    rewrite <- (batched_partition_concat max_size max_count objects) in Hall.
    revert Hall.
    induction (batched_partition max_size max_count objects)
      as [|batch batches IH]; simpl; intros Hall; [constructor|].
    apply Forall_app in Hall as [Hb Hbs]. constructor; auto.
Qed.

(** C10. When no size is negative, a record whose size is at least
    [max_size] is the last record of its batch; when it is also the
    first, the batch is that record alone, and the executor reports
    success for it without sending a request to the store. *)
Theorem heavy_record_closes_batch {World : Type}
    (store : World -> Call -> World * Reply) (bucket : str)
    (max_size max_count : Z) (objects : list Object)
    (earlier : list (list Object)) (batch : list Object)
    (later : list (list Object)) (before : list Object) (obj : Object)
    (after : list Object) :
  Forall (fun o => 0 <= size_ o) objects ->
  batched_partition max_size max_count objects = earlier ++ batch :: later ->
  batch = before ++ obj :: after ->
  max_size <= size_ obj ->
  after = []
  /\ (before = [] ->
      batch = [obj] /\
      forall st, coalesce_batch store bucket batch st = (inr true, st)).
Proof.
  intros Hnn Hbatches Hbatch Hheavy.
  assert (after = []) as ->.
  { destruct (batch_loop_heavy max_size max_count objects Hnn)
      as (Hem & Hcur & _).
    assert (batch ∈ batched_partition max_size max_count objects) as Hin.
    { rewrite Hbatches. apply elem_of_app. right. apply elem_of_cons.
      left. reflexivity. }
    destruct (batched_partition_cases max_size max_count objects)
      as [[_ H]|[_ H]]; rewrite H in Hin; clear H.
    - rewrite Forall_forall in Hem.
      exact (Hem batch Hin before obj after Hbatch Hheavy).
    - apply elem_of_app in Hin as [Hin|Hin].
      + rewrite Forall_forall in Hem.
        exact (Hem batch Hin before obj after Hbatch Hheavy).
      + apply list_elem_of_singleton in Hin. exfalso.
        rewrite <- Hin, Hbatch in Hcur.
        apply Forall_app in Hcur as [_ Hcur].
        apply Forall_cons in Hcur as [Hcur _]. lia. }
  split; [reflexivity|].
  intros ->. simpl in Hbatch. subst batch.
  split; [reflexivity|].
  intros st. apply coalesce_batch_small. simpl. lia.
Qed.

(** ** Decimal numerals *)

Lemma int_chars_acc (d : Decimal.uint) (acc : positive) :
  foldl (fun acc c => acc * 10 + (code c - 48)) (Z.pos acc) (chars d)
  = Z.pos (Pos.of_uint_acc d acc).
Proof.
  revert acc. induction d as [|d IH|d IH|d IH|d IH|d IH|d IH|d IH|d IH|d IH|d IH];
    intros acc; [reflexivity|..];
    cbn [chars NilEmpty.string_of_uint list_ascii_of_string foldl
         Pos.of_uint_acc];
    fold (chars d); rewrite <- IH; f_equal; vm_compute code; lia.
Qed.

Lemma int_chars (d : Decimal.uint) : int (chars d) = Z.of_N (N.of_uint d).
Proof.
  unfold int, N.of_uint.
  induction d as [|d IH|d IH|d IH|d IH|d IH|d IH|d IH|d IH|d IH|d IH];
    [reflexivity|exact IH|..];
    cbn [chars NilEmpty.string_of_uint list_ascii_of_string foldl Pos.of_uint];
    fold (chars d); cbn [Z.of_N]; rewrite <- int_chars_acc; f_equal.
Qed.

Lemma decimal_chars (n : N) : decimal n = chars (N.to_uint n).
Proof.
  unfold decimal, chars, NilZero.string_of_uint.
  destruct (N.to_uint n) eqn:Hn; try reflexivity.
  destruct n as [|p]; [discriminate|].
  exfalso. exact (DecimalPos.Unsigned.to_uint_nonnil p Hn).
Qed.

Lemma int_decimal (n : N) : int (decimal n) = Z.of_N n.
Proof.
  rewrite decimal_chars, int_chars, DecimalN.Unsigned.of_to. reflexivity.
Qed.

Lemma chars_digits (d : Decimal.uint) :
  Forall (fun c => is_digit c = true) (chars d).
Proof.
  induction d; [constructor|..]; constructor; (reflexivity || assumption).
Qed.

Lemma is_number_decimal (n : N) : is_number (decimal n).
Proof.
  rewrite decimal_chars. split; [|apply chars_digits].
  destruct n as [|p]; [discriminate|].
  simpl. pose proof (DecimalPos.Unsigned.to_uint_nonnil p) as Hnil.
  destruct (Pos.to_uint p); [congruence|..]; discriminate.
Qed.

Lemma is_number_numeral (zeros : nat) (n : N) : is_number (numeral zeros n).
Proof.
  destruct (is_number_decimal n) as [Hne Hall]. split.
  - unfold numeral. destruct (decimal n); [congruence|].
    destruct zeros; discriminate.
  - apply Forall_app. split; [|exact Hall].
    apply Forall_replicate. reflexivity.
Qed.

Lemma int_leading_zeros (n : nat) (w : str) :
  int (replicate n "0"%char ++ w) = int w.
Proof.
  induction n as [|n IH]; [reflexivity|].
  simpl. unfold int in *. simpl. exact IH.
Qed.

Lemma int_numeral (zeros : nat) (n : N) : int (numeral zeros n) = Z.of_N n.
Proof. unfold numeral. rewrite int_leading_zeros. apply int_decimal. Qed.

Lemma digit_chars (c : ascii) (d : Decimal.uint) :
  is_digit c = true -> exists d', c :: chars d = chars d'.
Proof.
  destruct c as [[] [] [] [] [] [] [] []]; intros H;
    first [ discriminate H
          | exists (D0 d); reflexivity | exists (D1 d); reflexivity
          | exists (D2 d); reflexivity | exists (D3 d); reflexivity
          | exists (D4 d); reflexivity | exists (D5 d); reflexivity
          | exists (D6 d); reflexivity | exists (D7 d); reflexivity
          | exists (D8 d); reflexivity | exists (D9 d); reflexivity ].
Qed.

Lemma digits_chars (w : str) :
  Forall (fun c => is_digit c = true) w -> exists d, w = chars d.
Proof.
  induction 1 as [|c w Hc _ [d ->]]; [exists Nil; reflexivity|].
  apply digit_chars, Hc.
Qed.

Lemma chars_unorm (d : Decimal.uint) :
  d <> Nil ->
  exists zeros, chars d = replicate zeros "0"%char ++ chars (unorm d).
Proof.
  induction d as [|d IH|d _|d _|d _|d _|d _|d _|d _|d _|d _]; intros Hne;
    [congruence| |exists O; reflexivity..].
  destruct d as [|d|d|d|d|d|d|d|d|d|d];
    [exists O; reflexivity|..];
    (destruct IH as [zeros IH]; [discriminate|];
     exists (S zeros); unfold unorm in *; simpl nzhead in *;
     change (chars (D0 ?x)) with ("0"%char :: chars x);
     simpl replicate; simpl app; f_equal; exact IH).
Qed.

(** The unsigned decimal integers of the pattern are the numerals. *)
Lemma is_number_iff_numeral (w : str) :
  is_number w <-> exists zeros n, w = numeral zeros n.
Proof.
  split.
  - intros [Hne Hall]. destruct (digits_chars w Hall) as [d ->].
    assert (d <> Nil) as Hd by (intros ->; apply Hne; reflexivity).
    destruct (chars_unorm d Hd) as [zeros Hz].
    exists zeros, (N.of_uint d). unfold numeral.
    rewrite decimal_chars, DecimalN.Unsigned.to_of. exact Hz.
  - intros (zeros & n & ->). apply is_number_numeral.
Qed.

(** ** Key parser *)

(** C4. A key made of a directory part and an object name
    [/<stream>_<partition>_<start>-<end>.jsonl.gz], where the three
    fields are the decimal notations of the numbers [p], [st] and [e]
    after any number of zeros, has exactly one match and gives the
    record with the stream name of the key, the partition [p], the
    start offset [st], the end offset [e], the key itself and the size
    of the descriptor. These are all the keys of the grammar: the
    unsigned decimal integers of the pattern are exactly such
    numerals. The same holds when the name is followed by the final
    newline that [$] lets pass ([rest]). *)
Theorem key_fields_round_trip (pre t rest : str) (zp zs ze : nat)
    (p st e : N) (sz : Z) :
  is_name t ->
  rest = [] \/ rest = ["010"%char] ->
  length (findall filename_re
            (pre ++ file_name t (numeral zp p) (numeral zs st)
                      (numeral ze e) rest)) = 1%nat
  /\ parsed {| Key := pre ++ file_name t (numeral zp p) (numeral zs st)
                        (numeral ze e) rest;
               Size_ := sz |}
     = Some {| object_key := pre ++ file_name t (numeral zp p)
                                 (numeral zs st) (numeral ze e) rest;
               topic := t;
               partition := Z.of_N p;
               start_offset := Z.of_N st;
               end_offset := Z.of_N e;
               size_ := sz |}
  /\ (forall w, is_number w <-> exists zeros n, w = numeral zeros n).
Proof.
  intros Ht Hrest.
  assert (at_end rest = true) as Hr
      by (destruct Hrest as [->| ->]; reflexivity).
  pose proof (is_number_numeral zp p) as Hp.
  pose proof (is_number_numeral zs st) as Hst.
  pose proof (is_number_numeral ze e) as He.
  split; [|split].
  - rewrite findall_file_name by assumption. reflexivity.
  - rewrite parsed_file_name by assumption.
    rewrite !int_numeral. reflexivity.
  - apply is_number_iff_numeral.
Qed.

(** ** Stream grouper *)

(** C5. Every group the grouper builds is in non-decreasing order of
    [start_offset]; its records with one and the same [start_offset]
    are, in order, those of the listing with that topic, partition and
    offset; and all its records have the topic and partition of the
    group. *)
Theorem groups_are_sorted_and_stable (summaries : list Summary) (t : str)
    (p : Z) (objects : list Object) :
  at_partition (grouped_object_summaries summaries) t p = Some objects ->
  StronglySorted (fun a b => start_offset a <= start_offset b) objects
  /\ (forall k,
         filter (fun obj => start_offset obj = k) objects
         = filter (fun obj => start_offset obj = k)
             (filter (of_group t p) (parsed_objects summaries)))
  /\ Forall (fun obj => topic obj = t /\ partition obj = p) objects.
Proof.
  intros Hgroup. apply at_partition_grouped in Hgroup as [-> _].
  split; [|split].
  - apply (sorted_sorted start_offset).
  - intros k. apply (sorted_stable start_offset).
  - rewrite sorted_perm. apply Forall_forall.
    intros obj Hin. apply list_elem_of_filter in Hin as [H _]. exact H.
Qed.

(** ** Executor *)

(** C6. A group of one record gives one batch, that record alone, and
    the executor reports success for it and leaves the run as it was:
    no request is sent to the store. *)
Theorem single_record_group {World : Type}
    (store : World -> Call -> World * Reply) (bucket : str)
    (max_size max_count : Z) (obj : Object) (st : Run World) :
  batched_partition max_size max_count [obj] = [[obj]]
  /\ coalesce_batch store bucket [obj] st = (inr true, st)
  /\ coalesce_partition store bucket
       (batched_partition max_size max_count [obj]) st
     = (inr [true], st).
Proof.
  assert (batched_partition max_size max_count [obj] = [[obj]]) as Hb.
  { unfold batched_partition, batch_loop. simpl. unfold batch_step. simpl.
    destruct ((0 + size_ obj >=? max_size) || (0 + 1 >=? max_count));
      reflexivity. }
  assert (coalesce_batch store bucket [obj] st = (inr true, st)) as Hc.
  { apply coalesce_batch_small. simpl. lia. }
  split; [exact Hb|]. split; [exact Hc|].
  rewrite Hb. unfold coalesce_partition. simpl.
  unfold bind at 1. rewrite Hc. reflexivity.
Qed.

(** C7. A rejection by the store, of the coalesce or of the delete
    request, never leaves the task of the batch: the task returns an
    outcome, false exactly when a request of that batch was rejected,
    and false in particular when the coalesce completed and the delete
    was rejected. The task of a partition returns one outcome for each
    batch, the outcome at a position being that of the batch at that
    position run after the earlier ones. Over the whole plan every
    batch of several records of every partition and topic is sent for
    coalescing whatever the replies are, and the result of the run is
    false as soon as one request was rejected. *)
Theorem rejection_fails_one_batch {World : Type}
    (store : World -> Call -> World * Reply) (bucket : str) :
  (forall batch st,
      exists ok st' new,
        coalesce_batch store bucket batch st = (inr ok, st') /\
        sent st' = sent st ++ new /\
        ok = negb (existsb is_rejected new))
  /\ (forall batch st w1 w2,
         (1 < length batch)%nat ->
         store (world st) (CoalesceBatch bucket batch) = (w1, Completed) ->
         store w1 (DeleteBatch bucket batch) = (w2, Rejected) ->
         coalesce_batch store bucket batch st
         = (inr false,
            {| world := w2;
               sent := sent st ++ [(CoalesceBatch bucket batch, Completed);
                                   (DeleteBatch bucket batch, Rejected)] |}))
  /\ (forall partition st,
         exists oks st' new,
           coalesce_partition store bucket partition st = (inr oks, st') /\
           length oks = length partition /\
           sent st' = sent st ++ new /\
           coalesced new = to_coalesce bucket partition /\
           forall i batch,
             partition !! i = Some batch ->
             inr <$> oks !! i
             = Some (coalesce_batch store bucket batch
                       (coalesce_partition store bucket
                          (take i partition) st).2).1)
  /\ (forall batched st,
         exists results st' new,
           coalesce_topics store bucket batched st = (inr results, st') /\
           sent st' = sent st ++ new /\
           coalesced new = to_coalesce bucket (all_batches batched) /\
           successful_result results = negb (existsb is_rejected new)).
Proof.
  split; [|split; [|split]].
  - intros batch st.
    destruct (coalesce_batch_contained store bucket batch st)
      as (ok & st' & new & Hrun & Hsent & Hok & _).
    exists ok, st', new. auto.
  - intros batch st w1 w2 Hlen Hc Hd.
    rewrite (coalesce_batch_large store bucket batch st Hlen), Hc, Hd.
    rewrite <- app_assoc. reflexivity.
  - intros partition st.
    destruct (coalesce_partition_contained store bucket partition st)
      as (oks & st' & new & Hrun & Hsent & _ & Hatt).
    exists oks, st', new. repeat split; auto.
    + eapply for_each_length, Hrun.
    + intros i batch Hi.
      destruct (coalesce_partition_lookup store bucket partition st i batch Hi)
        as (oks' & st'' & Hrun' & Hlook).
      rewrite Hrun in Hrun'. injection Hrun' as <- <-. exact Hlook.
  - intros batched st.
    destruct (coalesce_topics_contained store bucket batched st)
      as (results & st' & new & Hrun & Hsent & Hok & Hatt).
    exists results, st', new. auto.
Qed.

(** ** Keys outside the grammar *)

(** Every match the scan records is a match of the pattern at some
    position of the text. *)
Lemma scan_elem (p : list item) (k : nat) (text : str) (caps : list str) :
  caps ∈ scan p k text ->
  exists pre text' rest,
    text = pre ++ text' /\ match_here p text' = Some (caps, rest).
Proof.
  revert k. induction text as [|c text IH]; intros k Hin.
  - destruct k as [|k]; simpl in Hin; [|inversion Hin].
    destruct (match_here p []) as [[caps' rest]|] eqn:Hm; [|inversion Hin].
    apply list_elem_of_singleton in Hin as ->.
    exists [], [], rest. split; [reflexivity|exact Hm].
  - destruct k as [|k]; simpl in Hin.
    + destruct (match_here p (c :: text)) as [[caps' rest]|] eqn:Hm.
      * apply elem_of_cons in Hin as [->|Hin].
        -- exists [], (c :: text), rest. split; [reflexivity|exact Hm].
        -- destruct (IH _ Hin) as (pre & text' & rest' & -> & Hm').
           exists (c :: pre), text', rest'. split; [reflexivity|exact Hm'].
      * destruct (IH _ Hin) as (pre & text' & rest' & -> & Hm').
        exists (c :: pre), text', rest'. split; [reflexivity|exact Hm'].
    + destruct (IH _ Hin) as (pre & text' & rest' & -> & Hm').
      exists (c :: pre), text', rest'. split; [reflexivity|exact Hm'].
Qed.

(** The keys that give a record: a directory part, an object name,
    and nothing or one newline after it. *)
Lemma parsed_Some (summary : Summary) (obj : Object) :
  parsed summary = Some obj ->
  exists pre t p st e rest,
    Key summary = pre ++ file_name t p st e rest /\
    (rest = [] \/ rest = ["010"%char]) /\
    is_name t /\ is_number p /\ is_number st /\ is_number e /\
    obj = {| object_key := Key summary; topic := t; partition := int p;
             start_offset := int st; end_offset := int e;
             size_ := Size_ summary |}.
Proof.
  unfold parsed.
  destruct (findall filename_re (Key summary)) as [|caps l] eqn:Hfind;
    [discriminate|].
  destruct (negb _ && _); [|discriminate].
  assert (caps ∈ scan filename_re O (Key summary)) as Hin.
  { unfold findall in Hfind. rewrite Hfind. apply elem_of_cons. left.
    reflexivity. }
  apply scan_elem in Hin as (pre & text' & rest & Hkey & Hm).
  apply match_here_sound, matches_filename_re in Hm.
  destruct Hm as (t & p & st & e & -> & -> & Hr & Ht & Hp & Hst & He).
  intros [= <-]. exists pre, t, p, st, e, rest.
  split; [exact Hkey|]. split; [apply at_end_cases, Hr|]. auto 10.
Qed.

(** The members of a group are the objects of summaries of the
    listing. *)
Lemma grouped_members (summaries : list Summary) (t : str) (p : Z)
    (objects : list Object) (obj : Object) :
  at_partition (grouped_object_summaries summaries) t p = Some objects ->
  obj ∈ objects ->
  exists summary, summary ∈ summaries /\ parsed summary = Some obj.
Proof.
  intros Hgroup Hin. apply at_partition_grouped in Hgroup as [-> _].
  rewrite sorted_perm in Hin. apply list_elem_of_filter in Hin as [_ Hin].
  unfold parsed_objects in Hin. apply list_elem_of_omap in Hin.
  exact Hin.
Qed.

(** C9, at a key outside the grammar: the key does not end with the
    suffix, since a newline follows it, yet the pattern matches it
    once, the descriptor gives a record, and the record is in the
    group of its topic and partition. *)
Theorem key_with_final_newline_is_grouped :
  ~ naming_grammar newline_key
  /\ parsed {| Key := newline_key; Size_ := 1 |} = Some newline_object
  /\ at_partition
       (grouped_object_summaries [{| Key := newline_key; Size_ := 1 |}])
       (txt "t") 0
     = Some [newline_object].
Proof.
  split; [|split].
  - intros (pre & t & p & st & e & Heq & _).
    rewrite file_name_fields in Heq.
    apply (f_equal (@rev ascii)) in Heq.
    change (pre ++ "/"%char :: fields t p st e ++ txt ".jsonl.gz" ++ [])
      with (pre ++ ("/"%char :: fields t p st e) ++ txt ".jsonl.gz" ++ [])
      in Heq.
    rewrite !rev_app_distr in Heq. simpl in Heq. discriminate.
  - vm_compute. reflexivity.
  - vm_compute. reflexivity.
Qed.

(** ** Partition filter *)

(** C8, on a listing with objects of partitions 0 and 1: the call of
    [main] passes two arguments to a function of one parameter and
    raises [TypeError], with the filter set to partition 0 and without
    a filter alike, whatever the listing; and the function itself,
    which takes the listing only, groups the object of partition 1. *)
Theorem partition_filter_is_not_applied :
  (forall summaries partition,
      main_grouped summaries partition = inl TypeError)
  /\ main_grouped two_partitions (Some 0) = inl TypeError
  /\ main_grouped two_partitions None = inl TypeError
  /\ at_partition (grouped_object_summaries two_partitions) (txt "t") 1
     = Some [ {| object_key := txt "/t_1_0-1.jsonl.gz"; topic := txt "t";
                 partition := 1; start_offset := 0; end_offset := 1;
                 size_ := 1 |} ].
Proof.
  split; [intros summaries partition; reflexivity|].
  split; [reflexivity|]. split; [reflexivity|].
  vm_compute. reflexivity.
Qed.

(** * Instances *)

(** Sizes 40000, 40000, 40000 under the bounds 100000 and 10: one
    batch, closed by the record that reaches the size bound. *)
Example batch_closes_after_crossing :
  batched_partition 100000 10
    [record 0 40000; record 1 40000; record 2 40000]
  = [[record 0 40000; record 1 40000; record 2 40000]].
Proof. reflexivity. Qed.

(** Five records of size 1 under the count bound 2: two full batches
    and the remainder. *)
Example batch_remainder_is_emitted :
  batched_partition 100000 2
    [record 0 1; record 1 1; record 2 1; record 3 1; record 4 1]
  = [[record 0 1; record 1 1]; [record 2 1; record 3 1]; [record 4 1]].
Proof. reflexivity. Qed.

Lemma batches_respect_bounds_witness :
  0 < 100000 /\ 0 < 2
  /\ Forall (fun batch => Z.of_nat (length batch) <= 2)
       (batched_partition 100000 2
          [record 0 1; record 1 1; record 2 1; record 3 1; record 4 1]).
Proof.
  split; [reflexivity|]. split; [reflexivity|].
  destruct (batches_respect_bounds 100000 2
              [record 0 1; record 1 1; record 2 1; record 3 1; record 4 1]
              eq_refl eq_refl) as (_ & H & _).
  exact H.
Defined.

Lemma listing_group_found :
  at_partition (grouped_object_summaries listing) (txt "t") 0
  = Some listing_group.
Proof. vm_compute. reflexivity. Qed.

Lemma batches_partition_the_group_witness :
  exists batches,
    at_partition
      (batched_object_summaries 50 10 (grouped_object_summaries listing))
      (txt "t") 0 = Some batches
    /\ concat batches = listing_group
    /\ Forall (fun batch => batch <> []) batches
    /\ (forall summaries,
           grouped_object_summaries listing
           = grouped_object_summaries summaries ->
           Forall (Forall (of_group (txt "t") 0)) batches).
Proof.
  exact (batches_partition_the_group 50 10 (grouped_object_summaries listing)
           (txt "t") 0 listing_group listing_group_found).
Defined.

Lemma key_fields_round_trip_witness :
  length (findall filename_re
            (txt "data" ++
             file_name (txt "db.coll") (txt "003") (txt "100") (txt "199") []))
  = 1%nat
  /\ parsed {| Key := txt "data" ++
                      file_name (txt "db.coll") (txt "003") (txt "100")
                        (txt "199") [];
               Size_ := 42 |}
     = Some {| object_key := txt "data" ++
                             file_name (txt "db.coll") (txt "003")
                               (txt "100") (txt "199") [];
               topic := txt "db.coll";
               partition := 3;
               start_offset := 100;
               end_offset := 199;
               size_ := 42 |}
  /\ (forall w, is_number w <-> exists zeros n, w = numeral zeros n).
Proof.
  apply (key_fields_round_trip (txt "data") (txt "db.coll") [] 2 0 0
           3 100 199 42).
  - split; [discriminate|]. repeat constructor.
  - left. reflexivity.
Defined.

Lemma groups_are_sorted_and_stable_witness :
  StronglySorted (fun a b => start_offset a <= start_offset b) listing_group
  /\ (forall k,
         filter (fun obj => start_offset obj = k) listing_group
         = filter (fun obj => start_offset obj = k)
             (filter (of_group (txt "t") 0) (parsed_objects listing)))
  /\ Forall (fun obj => topic obj = txt "t" /\ partition obj = 0)
       listing_group.
Proof.
  exact (groups_are_sorted_and_stable listing (txt "t") 0 listing_group
           listing_group_found).
Defined.

Lemma heavy_record_closes_batch_witness :
  @nil Object = []
  /\ (@nil Object = [] ->
      [record 0 200] = [record 0 200] /\
      forall st,
        coalesce_batch obliging_store [] [record 0 200] st = (inr true, st)).
Proof.
  apply (heavy_record_closes_batch obliging_store [] 100 10
           [record 0 200; record 1 7] [] [record 0 200] [[record 1 7]]
           [] (record 0 200) []).
  - repeat constructor; discriminate.
  - reflexivity.
  - reflexivity.
  - discriminate.
Defined.

(** One batch of one record and two batches of two: the deletes are
    rejected, the outcomes of the two large batches are failures, all
    three batches are run, and the result of the run is false. *)
Example rejected_deletes_fail_the_run :
  let partition :=
    [[record 0 1]; [record 1 1; record 2 1]; [record 3 1; record 4 1]] in
  let plan : gmap str (gmap Z (list (list Object))) :=
    {[ txt "t" := {[ 0 := partition ]} ]} in
  (coalesce_partition no_delete_store [] partition
     {| world := tt; sent := [] |}).1 = inr [true; false; false]
  /\ (exists st,
         coalesce_topics no_delete_store [] plan {| world := tt; sent := [] |}
         = (inr [[[true; false; false]]], st))
  /\ exit_status [[[true; false; false]]] = 2.
Proof.
  split; [reflexivity|]. split; [|reflexivity].
  eexists. vm_compute. reflexivity.
Qed.

(** * Further properties *)

(** ** The pattern on any key *)

Lemma scan_at_end (rest : str) :
  at_end rest = true -> scan filename_re O rest = [].
Proof. intros H. apply at_end_cases in H as [->| ->]; reflexivity. Qed.

Lemma scan_at_most_one (text : str) :
  (length (scan filename_re O text) <= 1)%nat.
Proof.
  induction text as [|c text IH]; [simpl; lia|].
  unfold scan at 1. fold scan.
  destruct (match_here filename_re (c :: text)) as [[caps rest]|] eqn:Hm;
    [|exact IH].
  pose proof Hm as Hm'.
  apply match_here_sound, matches_filename_re in Hm'.
  destruct Hm' as (t & p & st & e & _ & Heq & Hr & _).
  rewrite file_name_fields in Heq.
  assert (text = fields t p st e ++ txt ".jsonl.gz" ++ rest) as ->
      by congruence.
  replace (length (c :: fields t p st e ++ txt ".jsonl.gz" ++ rest)
           - length rest - 1)%nat
    with (length (fields t p st e ++ txt ".jsonl.gz")).
  - rewrite app_assoc, scan_skip, scan_at_end by exact Hr. simpl. lia.
  - simpl. rewrite !length_app. simpl. lia.
Qed.

Lemma findall_nil_parsed (summary : Summary) :
  findall filename_re (Key summary) = [] -> parsed summary = None.
Proof. unfold parsed. intros ->. reflexivity. Qed.

(** X1. Whatever the key, the pattern has at most one match in it:
    the test [len(match) == 1] never turns down a key that has a
    match, and a descriptor is skipped exactly when its key has no
    match. *)
Theorem key_has_at_most_one_match (summary : Summary) :
  (length (findall filename_re (Key summary)) <= 1)%nat
  /\ (parsed summary = None <-> findall filename_re (Key summary) = []).
Proof.
  pose proof (scan_at_most_one (Key summary)) as Hle.
  split; [exact Hle|]. split; [|apply findall_nil_parsed].
  unfold parsed, findall in *.
  destruct (scan filename_re O (Key summary)) as [|caps [|caps' l]] eqn:Hs;
    [reflexivity| |simpl in Hle; lia].
  assert (caps ∈ scan filename_re O (Key summary)) as Hin.
  { rewrite Hs. apply elem_of_cons. left. reflexivity. }
  apply scan_elem in Hin as (pre & text' & rest & _ & Hm).
  apply match_here_sound, matches_filename_re in Hm.
  destruct Hm as (t & p & st & e & -> & _). simpl. discriminate.
Qed.

(** X2. A descriptor gives a record exactly when its key is a
    directory part, an object name and nothing or one newline after
    it. *)
Theorem record_iff_object_name (summary : Summary) :
  is_Some (parsed summary) <->
  exists pre t p st e rest,
    Key summary = pre ++ file_name t p st e rest /\
    (rest = [] \/ rest = ["010"%char]) /\
    is_name t /\ is_number p /\ is_number st /\ is_number e.
Proof.
  split.
  - intros [obj Hobj].
    apply parsed_Some in Hobj
      as (pre & t & p & st & e & rest & Hk & Hr & Ht & Hp & Hst & He & _).
    exists pre, t, p, st, e, rest. auto 10.
  - intros (pre & t & p & st & e & rest & Hk & Hr & Ht & Hp & Hst & He).
    assert (at_end rest = true) as Hend
        by (destruct Hr as [->| ->]; reflexivity).
    destruct summary as [key sz]. simpl in Hk. subst key.
    rewrite parsed_file_name by assumption. eauto.
Qed.

(** ** Numbers *)

Lemma int_foldl_nonneg (w : str) (acc : Z) :
  Forall (fun c => is_digit c = true) w -> 0 <= acc ->
  0 <= foldl (fun acc c => acc * 10 + (code c - 48)) acc w.
Proof.
  intros Hall. revert acc.
  induction Hall as [|c w Hc _ IH]; intros acc Hacc; simpl; [exact Hacc|].
  apply IH. unfold is_digit, between in Hc.
  apply andb_true_iff in Hc as [Hlo _]. apply Z.leb_le in Hlo. lia.
Qed.

Lemma int_nonneg (w : str) : is_number w -> 0 <= int w.
Proof. intros [_ Hall]. apply int_foldl_nonneg; [exact Hall|lia]. Qed.

Lemma is_number_leading_zeros (n : nat) (w : str) :
  is_number w -> is_number (replicate n "0"%char ++ w).
Proof.
  intros [Hne Hall]. split.
  - destruct w; [congruence|]. destruct n; discriminate.
  - apply Forall_app. split; [|exact Hall].
    apply Forall_replicate. reflexivity.
Qed.

(** ** The grouper on any listing *)

Lemma at_partition_lookup {V : Type} (d : gmap str (gmap Z V)) (t : str)
    (by_partition : gmap Z V) (p : Z) :
  d !! t = Some by_partition -> at_partition d t p = by_partition !! p.
Proof. unfold at_partition. intros ->. reflexivity. Qed.

Lemma append_object_populated (grouped : gmap str (gmap Z (list Object)))
    (obj : Object) :
  populated grouped -> populated (append_object grouped obj).
Proof.
  intros Hpop t by_partition. unfold append_object.
  destruct (decide (topic obj = t)) as [<-|Hne].
  - rewrite lookup_insert_eq. intros [= <-].
    eexists (partition obj), _. apply lookup_insert_eq.
  - rewrite lookup_insert_ne by exact Hne.
    destruct (grouped !! topic obj); [apply Hpop|].
    rewrite lookup_insert_ne by exact Hne. apply Hpop.
Qed.

Lemma collected_populated (summaries : list Summary) :
  populated (collected summaries).
Proof.
  unfold collected. rewrite collected_foldl.
  induction (parsed_objects summaries) as [|obj objs IH] using rev_ind.
  - intros t by_partition. simpl. rewrite lookup_empty. discriminate.
  - rewrite foldl_app. simpl. apply append_object_populated, IH.
Qed.

Lemma grouped_lookup (summaries : list Summary) (t : str) (p : Z) :
  at_partition (grouped_object_summaries summaries) t p
  = match filter (of_group t p) (parsed_objects summaries) with
    | [] => None
    | group => Some (sorted group start_offset)
    end.
Proof.
  unfold grouped_object_summaries.
  rewrite (at_partition_fmap (fun keys => sorted keys start_offset)).
  rewrite at_partition_collected.
  destruct (filter (of_group t p) (parsed_objects summaries)); reflexivity.
Qed.

(** X3. The grouping has no empty entry: a topic it holds has at
    least one partition, and the list of every partition it holds has
    at least one record. *)
Theorem grouping_has_no_empty_entry (summaries : list Summary) (t : str)
    (by_partition : gmap Z (list Object)) :
  grouped_object_summaries summaries !! t = Some by_partition ->
  (exists p objects, by_partition !! p = Some objects)
  /\ (forall p objects, by_partition !! p = Some objects -> objects <> []).
Proof.
  intros Ht. split.
  - unfold grouped_object_summaries in Ht. rewrite lookup_fmap in Ht.
    destruct (collected summaries !! t) as [inner|] eqn:Hc; [|discriminate].
    injection Ht as <-.
    destruct (collected_populated summaries t inner Hc) as (p & v & Hp).
    exists p, (sorted v start_offset). rewrite lookup_fmap, Hp. reflexivity.
  - intros p objects Hp.
    rewrite <- (at_partition_lookup _ t by_partition p Ht) in Hp.
    apply at_partition_grouped in Hp as [-> Hne].
    intros Hnil. apply Hne.
    apply Permutation_nil_r. rewrite <- Hnil. symmetry. apply sorted_perm.
Qed.

(** X4. No matching descriptor is lost or doubled: the object of a
    descriptor of the listing is in the group of its topic and
    partition, and that group is a rearrangement of the objects of the
    listing with that topic and partition. *)
Theorem matching_descriptor_is_grouped (summaries : list Summary)
    (summary : Summary) (obj : Object) :
  summary ∈ summaries ->
  parsed summary = Some obj ->
  exists objects,
    at_partition (grouped_object_summaries summaries)
                 (topic obj) (partition obj) = Some objects
    /\ obj ∈ objects
    /\ objects
       ≡ₚ filter (of_group (topic obj) (partition obj))
            (parsed_objects summaries).
Proof.
  intros Hin Hobj.
  assert (obj ∈ filter (of_group (topic obj) (partition obj))
                       (parsed_objects summaries)) as Hmem.
  { apply list_elem_of_filter. split; [split; reflexivity|].
    unfold parsed_objects. apply list_elem_of_omap. eauto. }
  rewrite grouped_lookup.
  destruct (filter (of_group (topic obj) (partition obj))
                   (parsed_objects summaries)) as [|x group] eqn:Hf;
    [inversion Hmem|].
  eexists. split; [reflexivity|]. split.
  - rewrite sorted_perm. exact Hmem.
  - apply sorted_perm.
Qed.

(** X5. Every record of a group comes from a descriptor of the
    listing, with the key and the size of that descriptor, and its
    partition and offsets are not negative. *)
Theorem grouped_record_has_a_descriptor (summaries : list Summary) (t : str)
    (p : Z) (objects : list Object) (obj : Object) :
  at_partition (grouped_object_summaries summaries) t p = Some objects ->
  obj ∈ objects ->
  exists summary,
    summary ∈ summaries
    /\ Key summary = object_key obj
    /\ Size_ summary = size_ obj
    /\ 0 <= partition obj /\ 0 <= start_offset obj /\ 0 <= end_offset obj.
Proof.
  intros Hgroup Hin.
  destruct (grouped_members summaries t p objects obj Hgroup Hin)
    as (summary & Hs & Hobj).
  exists summary. split; [exact Hs|].
  apply parsed_Some in Hobj
    as (pre & t' & p' & st & e & rest & _ & _ & _ & Hp & Hst & He & ->).
  simpl. repeat split; try reflexivity; apply int_nonneg; assumption.
Qed.

(** X6. The partition of a record is the number its key holds, not
    the text: two object names of one stream whose partition fields
    differ by leading zeros only give records of the same group. *)
Theorem leading_zeros_share_a_group (pre1 pre2 t p st1 e1 st2 e2 : str)
    (n : nat) (sz1 sz2 : Z) :
  is_name t -> is_number p ->
  is_number st1 -> is_number e1 -> is_number st2 -> is_number e2 ->
  exists obj1 obj2,
    parsed {| Key := pre1 ++ file_name t (replicate n "0"%char ++ p) st1 e1 [];
              Size_ := sz1 |} = Some obj1
    /\ parsed {| Key := pre2 ++ file_name t p st2 e2 []; Size_ := sz2 |}
       = Some obj2
    /\ of_group (topic obj2) (partition obj2) obj1.
Proof.
  intros Ht Hp Hst1 He1 Hst2 He2.
  rewrite !parsed_file_name
    by (try apply is_number_leading_zeros; auto).
  eexists _, _. split; [reflexivity|]. split; [reflexivity|].
  split; simpl; [reflexivity|apply int_leading_zeros].
Qed.

(** ** The batcher on any group *)

Lemma length_concat_nonempty {A : Type} (ls : list (list A)) :
  Forall (fun l => l <> []) ls -> (length ls <= length (concat ls))%nat.
Proof.
  induction 1 as [|l ls Hl _ IH]; simpl; [lia|].
  rewrite length_app. destruct l; [congruence|]. simpl. lia.
Qed.

Lemma batched_partition_nil (max_size max_count : Z)
    (objects : list Object) :
  batched_partition max_size max_count objects = [] -> objects = [].
Proof.
  intros Hnil.
  rewrite <- (batched_partition_concat max_size max_count objects), Hnil.
  reflexivity.
Qed.

(** X7. The batcher gives no batch exactly for a group without
    records, and never more batches than records. *)
Theorem batches_exist_iff_records (max_size max_count : Z)
    (objects : list Object) :
  (batched_partition max_size max_count objects = [] <-> objects = [])
  /\ (length (batched_partition max_size max_count objects)
      <= length objects)%nat.
Proof.
  split.
  - split.
    + apply batched_partition_nil.
    + intros ->. reflexivity.
  - rewrite <- (batched_partition_concat max_size max_count objects) at 2.
    apply length_concat_nonempty, batched_partition_nonempty.
Qed.

Lemma batch_loop_singletons (max_size max_count : Z) (objects : list Object) :
  max_count <= 1
  \/ (max_size <= 0 /\ Forall (fun obj => 0 <= size_ obj) objects) ->
  batch_loop max_size max_count objects
  = with_emitted (map (fun obj => [obj]) objects) batch_start.
Proof.
  induction objects as [|obj objects IH] using rev_ind; intros Hbound.
  - reflexivity.
  - rewrite batch_loop_snoc, IH.
    + unfold batch_step, with_emitted. simpl.
      assert ((0 + size_ obj >=? max_size) || (0 + 1 >=? max_count) = true)
        as ->.
      { apply orb_true_iff. destruct Hbound as [H|[H Hnn]].
        - right. apply Z.geb_le. lia.
        - left. apply Z.geb_le. apply Forall_app in Hnn as [_ Hnn].
          apply Forall_cons in Hnn as [Hnn _]. lia. }
      rewrite map_app, !app_nil_r. reflexivity.
    + destruct Hbound as [H|[H Hnn]]; [left; exact H|right].
      apply Forall_app in Hnn as [Hnn _]. auto.
Qed.

Lemma coalesce_partition_singletons {World : Type}
    (store : World -> Call -> World * Reply) (bucket : str)
    (objects : list Object) (st : Run World) :
  coalesce_partition store bucket (map (fun obj => [obj]) objects) st
  = (inr (replicate (length objects) true), st).
Proof.
  unfold coalesce_partition.
  induction objects as [|obj objects IH]; [reflexivity|].
  simpl. unfold bind at 1.
  rewrite (coalesce_batch_small store bucket [obj] st) by (simpl; lia).
  unfold bind at 1. rewrite IH. reflexivity.
Qed.

(** X8. With a count bound of 1 or less, or a size bound of 0 or less
    on sizes that are not negative, every record is a batch of its
    own, and the executor reports success for all of them without a
    request to the store: nothing is coalesced. *)
Theorem degenerate_bounds_coalesce_nothing {World : Type}
    (store : World -> Call -> World * Reply) (bucket : str)
    (max_size max_count : Z) (objects : list Object) (st : Run World) :
  max_count <= 1
  \/ (max_size <= 0 /\ Forall (fun obj => 0 <= size_ obj) objects) ->
  batched_partition max_size max_count objects
  = map (fun obj => [obj]) objects
  /\ coalesce_partition store bucket
       (batched_partition max_size max_count objects) st
     = (inr (replicate (length objects) true), st).
Proof.
  intros Hbound.
  assert (batched_partition max_size max_count objects
          = map (fun obj => [obj]) objects) as Hb.
  { unfold batched_partition.
    rewrite (batch_loop_singletons _ _ _ Hbound). simpl.
    apply app_nil_r. }
  split; [exact Hb|]. rewrite Hb. apply coalesce_partition_singletons.
Qed.

Lemma batch_loop_below (max_size max_count : Z) (objects : list Object) :
  Forall (fun obj => 0 <= size_ obj) objects ->
  total_size objects < max_size ->
  Z.of_nat (length objects) < max_count ->
  batch_loop max_size max_count objects
  = {| emitted := []; current_batch := objects;
       current_batch_size := total_size objects;
       current_batch_count := Z.of_nat (length objects) |}.
Proof.
  induction objects as [|obj objects IH] using rev_ind;
    intros Hnn Hsize Hcount; [reflexivity|].
  apply Forall_app in Hnn as [Hnn Hobj].
  apply Forall_cons in Hobj as [Hobj _].
  rewrite total_size_app in Hsize. rewrite length_app in Hcount.
  simpl in Hsize, Hcount.
  rewrite batch_loop_snoc, IH by (auto; lia).
  unfold batch_step. simpl.
  assert ((total_size objects + size_ obj >=? max_size)
          || (Z.of_nat (length objects) + 1 >=? max_count) = false) as ->.
  { rewrite !Z.geb_leb. apply orb_false_iff.
    split; apply Z.leb_gt; lia. }
  rewrite total_size_app, length_app. simpl. f_equal; lia.
Qed.

(** X9. A group with records whose sizes are not negative, below the
    size bound in total and below the count bound in number, is one
    batch. *)
Theorem group_below_bounds_is_one_batch (max_size max_count : Z)
    (objects : list Object) :
  objects <> [] ->
  Forall (fun obj => 0 <= size_ obj) objects ->
  total_size objects < max_size ->
  Z.of_nat (length objects) < max_count ->
  batched_partition max_size max_count objects = [objects].
Proof.
  intros Hne Hnn Hsize Hcount. unfold batched_partition.
  rewrite (batch_loop_below _ _ _ Hnn Hsize Hcount). simpl.
  destruct objects; [congruence|reflexivity].
Qed.

Lemma batch_loop_tight (max_size max_count : Z) (objects : list Object) :
  let st := batch_loop max_size max_count objects in
  Forall (tight max_size max_count) (emitted st)
  /\ (current_batch st = [] \/ tight max_size max_count (current_batch st)).
Proof.
  induction objects as [|obj objects IH] using rev_ind.
  - simpl. split; [constructor|left; reflexivity].
  - simpl in *. destruct IH as [Hem _].
    pose proof (batch_loop_inv max_size max_count objects)
      as [_ _ _ _ Hopen].
    assert (tight max_size max_count
              (current_batch (batch_loop max_size max_count objects)
               ++ [obj])) as Htight.
    { eexists _, obj. split; [reflexivity|exact Hopen]. }
    rewrite batch_loop_snoc. unfold batch_step.
    destruct (_ || _); simpl.
    + split; [|left; reflexivity].
      apply Forall_app. split; [exact Hem|]. constructor; [exact Htight|].
      constructor.
    + split; [exact Hem|right; exact Htight].
Qed.

Lemma batched_partition_tight (max_size max_count : Z)
    (objects : list Object) :
  Forall (tight max_size max_count)
         (batched_partition max_size max_count objects).
Proof.
  destruct (batch_loop_tight max_size max_count objects) as [Hem Hcur].
  destruct (batched_partition_cases max_size max_count objects)
    as [[_ ->]|[Hne ->]]; [exact Hem|].
  apply Forall_app. split; [exact Hem|].
  constructor; [|constructor].
  destruct Hcur as [H|H]; [contradiction|exact H].
Qed.

(** X10. No batch goes on after it reached a bound: taken without its
    last record, every batch is empty or below both bounds. *)
Theorem batch_ends_at_first_bound (max_size max_count : Z)
    (objects : list Object) :
  Forall (fun batch =>
            exists init last,
              batch = init ++ [last] /\
              (init = [] \/
               (total_size init < max_size /\
                Z.of_nat (length init) < max_count)))
         (batched_partition max_size max_count objects).
Proof. exact (batched_partition_tight max_size max_count objects). Qed.

(** X11. With a positive size bound, a batch passes the bound by less
    than the size of its last record. *)
Theorem batch_overshoot_is_bounded (max_size max_count : Z)
    (objects : list Object) :
  0 < max_size ->
  Forall (fun batch =>
            exists init last,
              batch = init ++ [last] /\
              total_size batch < max_size + size_ last)
         (batched_partition max_size max_count objects).
Proof.
  intros Hpos.
  eapply Forall_impl; [apply batched_partition_tight|].
  intros batch (init & last & -> & Hinit).
  exists init, last. split; [reflexivity|].
  rewrite total_size_app. simpl.
  destruct Hinit as [->|[H _]]; simpl; lia.
Qed.

Lemma batch_step_with_emitted (max_size max_count : Z)
    (before : list (list Object)) (st : BatchState) (obj : Object) :
  batch_step max_size max_count (with_emitted before st) obj
  = with_emitted before (batch_step max_size max_count st obj).
Proof.
  unfold batch_step, with_emitted. simpl.
  destruct (_ || _); simpl; [|reflexivity].
  rewrite app_assoc. reflexivity.
Qed.

Lemma foldl_with_emitted (max_size max_count : Z)
    (before : list (list Object)) (st : BatchState) (objects : list Object) :
  foldl (batch_step max_size max_count) (with_emitted before st) objects
  = with_emitted before (foldl (batch_step max_size max_count) st objects).
Proof.
  revert st. induction objects as [|obj objects IH]; intros st;
    [reflexivity|].
  simpl. rewrite batch_step_with_emitted. apply IH.
Qed.

(** X12. Batching goes on afresh after a closed batch: when the
    records of a first part leave no running batch, the batches of
    the first part followed by further records are the batches of the
    first part followed by the batches of the further records. *)
Theorem batching_restarts_after_closed_batch (max_size max_count : Z)
    (first further : list Object) :
  current_batch (batch_loop max_size max_count first) = [] ->
  batched_partition max_size max_count (first ++ further)
  = batched_partition max_size max_count first
    ++ batched_partition max_size max_count further.
Proof.
  intros Hcur.
  pose proof (batch_loop_inv max_size max_count first)
    as [_ Hsize Hcount _ _].
  assert (batch_loop max_size max_count (first ++ further)
          = with_emitted (emitted (batch_loop max_size max_count first))
                         (batch_loop max_size max_count further)) as Hloop.
  { unfold batch_loop at 1. rewrite foldl_app.
    fold (batch_loop max_size max_count first).
    destruct (batch_loop max_size max_count first) as [em cur sz cnt].
    simpl in *. subst cur. simpl in *. subst sz cnt.
    unfold batch_loop.
    rewrite <- (foldl_with_emitted max_size max_count em batch_start).
    unfold with_emitted. simpl. rewrite app_nil_r. reflexivity. }
  unfold batched_partition. rewrite Hloop, Hcur. simpl.
  destruct (0 <? length (current_batch
                           (batch_loop max_size max_count further)))%nat;
    [rewrite app_assoc|]; reflexivity.
Qed.

(** ** Grouping and batching together *)

(** X13. In the plan made from a listing, the batches of a partition
    hold, taken together, the objects of the listing with that topic
    and partition, each as often as the listing has it, in
    non-decreasing order of start offset across the batches; and the
    partition has at least one batch. *)
Theorem plan_holds_each_object_once (max_size max_count : Z)
    (summaries : list Summary) (t : str) (p : Z)
    (batches : list (list Object)) :
  at_partition
    (batched_object_summaries max_size max_count
       (grouped_object_summaries summaries)) t p = Some batches ->
  concat batches ≡ₚ filter (of_group t p) (parsed_objects summaries)
  /\ StronglySorted (fun a b => start_offset a <= start_offset b)
       (concat batches)
  /\ batches <> [].
Proof.
  unfold batched_object_summaries.
  rewrite (at_partition_fmap (batched_partition max_size max_count)).
  rewrite grouped_lookup.
  destruct (filter (of_group t p) (parsed_objects summaries))
    as [|x group] eqn:Hf; [discriminate|].
  intros Heq. injection Heq as <-. rewrite batched_partition_concat.
  split; [exact (sorted_perm start_offset (x :: group))|].
  split; [exact (sorted_sorted start_offset (x :: group))|].
  intros Hnil. apply batched_partition_nil in Hnil.
  pose proof (sorted_perm start_offset (x :: group)) as Hperm.
  change (sorted (x :: group) start_offset)
    with (insert_by start_offset x (sorted group start_offset)) in Hperm.
  rewrite Hnil in Hperm.
  exact (Permutation_nil_cons Hperm).
Qed.

(** ** The requests of a run *)

Lemma exchanges_app (bucket : str) (new1 new2 : list (Call * Reply)) :
  exchanges bucket new1 -> exchanges bucket new2 ->
  exchanges bucket (new1 ++ new2).
Proof.
  induction 1; intros H2; simpl; [exact H2| |]; constructor; auto.
Qed.

Lemma for_each_sends {World A B : Type} (P : list (Call * Reply) -> Prop)
    (f : A -> Exec (St := Run World) B) (l : list A) :
  P [] -> (forall new1 new2, P new1 -> P new2 -> P (new1 ++ new2)) ->
  (forall x, sends P (f x)) -> sends P (for_each f l).
Proof.
  intros Hnil Happ Hf. induction l as [|x l IH]; intros st.
  - exists [], st, []. simpl. rewrite app_nil_r. auto.
  - destruct (Hf x st) as (y & st1 & new1 & Hrun1 & Hsent1 & HP1).
    destruct (IH st1) as (ys & st2 & new2 & Hrun2 & Hsent2 & HP2).
    exists (y :: ys), st2, (new1 ++ new2). simpl.
    unfold bind at 1. rewrite Hrun1. unfold bind at 1. rewrite Hrun2.
    split; [reflexivity|]. split; [|auto].
    rewrite Hsent2, Hsent1, app_assoc. reflexivity.
Qed.

Lemma coalesce_batch_exchanges {World : Type}
    (store : World -> Call -> World * Reply) (bucket : str)
    (batch : list Object) :
  sends (exchanges bucket) (coalesce_batch store bucket batch).
Proof.
  intros st. destruct (1 <? length batch)%nat eqn:Hlen.
  - apply Nat.ltb_lt in Hlen.
    rewrite (coalesce_batch_large store bucket batch st Hlen).
    destruct (store (world st) (CoalesceBatch bucket batch)) as [w1 [|]].
    + destruct (store w1 (DeleteBatch bucket batch)) as [w2 r2].
      eexists _, _, [(CoalesceBatch bucket batch, Completed);
                     (DeleteBatch bucket batch, r2)].
      split; [reflexivity|]. simpl. rewrite <- app_assoc.
      split; [reflexivity|]. constructor; [exact Hlen|constructor].
    + eexists _, _, [(CoalesceBatch bucket batch, Rejected)].
      split; [reflexivity|]. simpl. split; [reflexivity|].
      constructor; [exact Hlen|constructor].
  - apply Nat.ltb_ge in Hlen.
    rewrite (coalesce_batch_small store bucket batch st Hlen).
    exists true, st, []. rewrite app_nil_r. repeat split. constructor.
Qed.

Lemma coalesce_partition_exchanges {World : Type}
    (store : World -> Call -> World * Reply) (bucket : str)
    (partition : list (list Object)) :
  sends (exchanges bucket) (coalesce_partition store bucket partition).
Proof.
  unfold coalesce_partition.
  apply for_each_sends; [constructor|apply exchanges_app|intros batch].
  apply coalesce_batch_exchanges.
Qed.

Lemma exchanges_delete (bucket : str) (new : list (Call * Reply)) (i : nat)
    (bkt : str) (batch : list Object) (reply : Reply) :
  exchanges bucket new ->
  new !! i = Some (DeleteBatch bkt batch, reply) ->
  exists j,
    i = S j /\ new !! j = Some (CoalesceBatch bucket batch, Completed) /\
    bkt = bucket /\ (1 < length batch)%nat.
Proof.
  intros Hex. revert i.
  induction Hex as [|b new Hlen _ IH|b r new Hlen _ IH]; intros i Hi.
  - rewrite lookup_nil in Hi. discriminate.
  - destruct i as [|i]; simpl in Hi; [discriminate|].
    destruct (IH i Hi) as (j & -> & Hj & Hb & Hl).
    exists (S j). auto.
  - destruct i as [|[|i]]; simpl in Hi; [discriminate| |].
    + injection Hi as <- <- <-. exists O. auto.
    + destruct (IH i Hi) as (j & -> & Hj & Hb & Hl).
      exists (S (S j)). auto.
Qed.

Lemma exchanges_deleted (bucket : str) (new : list (Call * Reply)) :
  exchanges bucket new -> deleted new = completed new.
Proof.
  induction 1 as [|b new _ _ IH|b r new _ _ IH]; simpl;
    [reflexivity|exact IH|].
  unfold deleted, completed in *. simpl. rewrite IH. reflexivity.
Qed.

Lemma exchanges_all_completed (bucket : str) (new : list (Call * Reply)) :
  exchanges bucket new ->
  Forall (fun entry => entry.2 = Completed) new ->
  coalesced new = map (CoalesceBatch bucket) (deleted new).
Proof.
  induction 1 as [|b new _ _ IH|b r new _ _ IH]; intros Hall.
  - reflexivity.
  - apply Forall_cons in Hall as [Hr _]. discriminate.
  - apply Forall_cons in Hall as [_ Hall].
    apply Forall_cons in Hall as [_ Hall].
    unfold coalesced, deleted in *. simpl. rewrite IH by exact Hall.
    reflexivity.
Qed.

Lemma to_coalesce_in (bucket : str) (batch : list Object)
    (batches : list (list Object)) :
  CoalesceBatch bucket batch ∈ to_coalesce bucket batches -> batch ∈ batches.
Proof.
  unfold to_coalesce. intros Hin.
  apply list_elem_of_fmap in Hin as (b & [= <-] & Hb).
  apply list_elem_of_In, List.filter_In in Hb as [Hb _].
  apply list_elem_of_In, Hb.
Qed.

Lemma coalesced_in (call : Call) (reply : Reply)
    (new : list (Call * Reply)) (bucket : str) (batch : list Object) :
  call = CoalesceBatch bucket batch ->
  (call, reply) ∈ new -> call ∈ coalesced new.
Proof.
  intros -> Hin. unfold coalesced.
  apply list_elem_of_fmap. exists (CoalesceBatch bucket batch, reply).
  split; [reflexivity|].
  apply list_elem_of_In, List.filter_In. split; [|reflexivity].
  apply list_elem_of_In, Hin.
Qed.

(** The requests of the task of one partition, in the order the task
    sends them: their shape, and the coalesce requests among them. *)
Lemma coalesce_partition_requests {World : Type}
    (store : World -> Call -> World * Reply) (bucket : str)
    (partition : list (list Object)) (st : Run World) :
  exists oks st' new,
    coalesce_partition store bucket partition st = (inr oks, st')
    /\ sent st' = sent st ++ new
    /\ exchanges bucket new
    /\ coalesced new = to_coalesce bucket partition.
Proof.
  destruct (coalesce_partition_exchanges store bucket partition st)
    as (oks & st' & new & Hrun & Hsent & Hex).
  destruct (coalesce_partition_contained store bucket partition st)
    as (oks' & st'' & new' & Hrun' & Hsent' & _ & Hatt).
  rewrite Hrun in Hrun'. injection Hrun' as <- <-.
  rewrite Hsent in Hsent'. apply app_inv_head in Hsent' as <-.
  exists oks, st', new. auto.
Qed.

(** X14. Among the requests the task of one partition sends, in the
    order it sends them and whatever the store answers, a delete
    request comes only straight after the coalesce request for the
    same batch in the same bucket was completed, and only for a batch
    of the partition with several records. *)
Theorem delete_follows_completed_coalesce {World : Type}
    (store : World -> Call -> World * Reply) (bucket : str)
    (partition : list (list Object)) (st : Run World) :
  exists oks st' new,
    coalesce_partition store bucket partition st = (inr oks, st')
    /\ sent st' = sent st ++ new
    /\ forall i bkt batch reply,
         new !! i = Some (DeleteBatch bkt batch, reply) ->
         exists j,
           i = S j
           /\ new !! j = Some (CoalesceBatch bucket batch, Completed)
           /\ bkt = bucket
           /\ (1 < length batch)%nat
           /\ batch ∈ partition.
Proof.
  destruct (coalesce_partition_requests store bucket partition st)
    as (oks & st' & new & Hrun & Hsent & Hex & Hatt).
  exists oks, st', new. split; [exact Hrun|]. split; [exact Hsent|].
  intros i bkt batch reply Hi.
  destruct (exchanges_delete bucket new i bkt batch reply Hex Hi)
    as (j & -> & Hj & -> & Hlen).
  exists j. repeat split; try assumption.
  apply (to_coalesce_in bucket). rewrite <- Hatt.
  apply (coalesced_in _ Completed new bucket batch eq_refl).
  apply list_elem_of_lookup. eauto.
Qed.

(** X15. Among the requests the task of one partition sends, the
    batches of the delete requests are, in the order sent, the batches
    whose coalesce request was completed; when every reply to the task
    is a completion they are all the batches of the partition with
    several records, in the order of the partition. *)
Theorem deletes_are_the_completed_coalesces {World : Type}
    (store : World -> Call -> World * Reply) (bucket : str)
    (partition : list (list Object)) (st : Run World) :
  exists oks st' new,
    coalesce_partition store bucket partition st = (inr oks, st')
    /\ sent st' = sent st ++ new
    /\ deleted new = completed new
    /\ (Forall (fun entry => entry.2 = Completed) new ->
        deleted new = large partition).
Proof.
  destruct (coalesce_partition_requests store bucket partition st)
    as (oks & st' & new & Hrun & Hsent & Hex & Hatt).
  exists oks, st', new. split; [exact Hrun|]. split; [exact Hsent|].
  split; [apply (exchanges_deleted bucket), Hex|].
  intros Hall.
  pose proof (exchanges_all_completed bucket new Hex Hall) as Hc.
  rewrite Hatt in Hc. unfold to_coalesce in Hc.
  fold (large partition) in Hc.
  symmetry. revert Hc. generalize (large partition) (deleted new).
  induction l as [|b l IH]; intros [|d ds]; simpl; try discriminate;
    [reflexivity|].
  intros [= -> Hrest]. f_equal. apply IH, Hrest.
Qed.

(** ** The outcomes of a run *)

Lemma for_each_Forall2 {World A B : Type} (R : A -> B -> Prop)
    (f : A -> Exec (St := Run World) B) (l : list A) (st st' : Run World)
    (ys : list B) :
  (forall x st1 y st2, f x st1 = (inr y, st2) -> R x y) ->
  for_each f l st = (inr ys, st') -> Forall2 R l ys.
Proof.
  intros Hf. revert st st' ys.
  induction l as [|x l IH]; intros st st' ys; simpl.
  - intros [= <- _]. constructor.
  - unfold bind at 1. destruct (f x st) as [[e|y] st1] eqn:Hx; [discriminate|].
    unfold bind at 1.
    destruct (for_each f l st1) as [[e|ys'] st2] eqn:Hl; [discriminate|].
    intros [= <- _]. constructor; [eapply Hf, Hx|eapply IH, Hl].
Qed.

(** X16. A run over a plan returns one list of outcomes for each
    topic, in it one list for each partition of the topic, and in that
    one outcome for each batch of the partition: as many outcomes as
    the plan has batches. *)
Theorem run_gives_one_outcome_per_batch {World : Type}
    (store : World -> Call -> World * Reply) (bucket : str)
    (batched : gmap str (gmap Z (list (list Object)))) (st : Run World) :
  exists results st',
    coalesce_topics store bucket batched st = (inr results, st')
    /\ Forall2
         (fun (topic_entry : str * gmap Z (list (list Object))) topic_results =>
            Forall2
              (fun (entry : Z * list (list Object)) outcomes =>
                 length outcomes = length entry.2)
              (map_to_list topic_entry.2) topic_results)
         (map_to_list batched) results
    /\ length (concat (concat results)) = length (all_batches batched).
Proof.
  destruct (coalesce_topics_contained store bucket batched st)
    as (results & st' & new & Hrun & _).
  exists results, st'. split; [exact Hrun|].
  assert (Forall2
            (fun (topic_entry : str * gmap Z (list (list Object)))
                 topic_results =>
               Forall2
                 (fun (entry : Z * list (list Object)) outcomes =>
                    length outcomes = length entry.2)
                 (map_to_list topic_entry.2) topic_results)
            (map_to_list batched) results) as Hshape.
  { unfold coalesce_topics in Hrun.
    eapply for_each_Forall2; [|exact Hrun].
    intros topic_entry st1 topic_results st2 Htopic.
    unfold coalesce_topic in Htopic.
    eapply for_each_Forall2; [|exact Htopic].
    intros entry st3 outcomes st4 Hpart.
    eapply for_each_length, Hpart. }
  split; [exact Hshape|].
  unfold all_batches. clear Hrun.
  induction Hshape as [|topic_entry topic_results entries results' Ht _ IH];
    simpl; [reflexivity|].
  rewrite concat_app, !length_app, IH. f_equal.
  clear IH. induction Ht as [|entry outcomes es os Hlen _ IHt]; simpl;
    [reflexivity|].
  rewrite !length_app, IHt, Hlen. reflexivity.
Qed.

(** ** Instances of the further properties *)

Lemma listing_topic_found :
  grouped_object_summaries listing !! txt "t"
  = Some (default ∅ (grouped_object_summaries listing !! txt "t")).
Proof. vm_compute. reflexivity. Qed.

Lemma grouping_has_no_empty_entry_witness :
  (exists p objects,
      default ∅ (grouped_object_summaries listing !! txt "t") !! p
      = Some objects)
  /\ (forall p objects,
         default ∅ (grouped_object_summaries listing !! txt "t") !! p
         = Some objects -> objects <> []).
Proof.
  exact (grouping_has_no_empty_entry listing (txt "t") _ listing_topic_found).
Defined.

Lemma listing_first_parsed :
  parsed {| Key := txt "/t_0_5-6.jsonl.gz"; Size_ := 10 |}
  = Some listing_first.
Proof. vm_compute. reflexivity. Qed.

Lemma matching_descriptor_is_grouped_witness :
  exists objects,
    at_partition (grouped_object_summaries listing)
                 (topic listing_first) (partition listing_first)
    = Some objects
    /\ listing_first ∈ objects
    /\ objects
       ≡ₚ filter (of_group (topic listing_first) (partition listing_first))
            (parsed_objects listing).
Proof.
  apply (matching_descriptor_is_grouped listing
           {| Key := txt "/t_0_5-6.jsonl.gz"; Size_ := 10 |} listing_first).
  - apply elem_of_cons. left. reflexivity.
  - exact listing_first_parsed.
Defined.

Lemma grouped_record_has_a_descriptor_witness :
  exists summary,
    summary ∈ listing
    /\ Key summary = object_key listing_first
    /\ Size_ summary = size_ listing_first
    /\ 0 <= partition listing_first
    /\ 0 <= start_offset listing_first
    /\ 0 <= end_offset listing_first.
Proof.
  apply (grouped_record_has_a_descriptor listing (txt "t") 0 listing_group
           listing_first listing_group_found).
  unfold listing_group. do 2 (apply elem_of_cons; right).
  apply elem_of_cons. left. reflexivity.
Defined.

Lemma txt_is_number_7 : is_number (txt "7").
Proof. split; [discriminate|repeat constructor]. Qed.

Lemma leading_zeros_share_a_group_witness :
  exists obj1 obj2,
    parsed {| Key := txt "a" ++
                     file_name (txt "t") (replicate 2 "0"%char ++ txt "7")
                       (txt "7") (txt "7") [];
              Size_ := 1 |} = Some obj1
    /\ parsed {| Key := txt "b" ++
                        file_name (txt "t") (txt "7") (txt "7") (txt "7") [];
                 Size_ := 2 |} = Some obj2
    /\ of_group (topic obj2) (partition obj2) obj1.
Proof.
  apply (leading_zeros_share_a_group (txt "a") (txt "b") (txt "t") (txt "7")
           (txt "7") (txt "7") (txt "7") (txt "7") 2 1 2);
    try exact txt_is_number_7.
  split; [discriminate|repeat constructor].
Defined.

Lemma degenerate_bounds_coalesce_nothing_witness :
  batched_partition 100000 1 [record 0 1; record 1 1]
  = map (fun obj => [obj]) [record 0 1; record 1 1]
  /\ coalesce_partition obliging_store []
       (batched_partition 100000 1 [record 0 1; record 1 1])
       {| world := tt; sent := [] |}
     = (inr (replicate (length [record 0 1; record 1 1]) true),
        {| world := tt; sent := [] |}).
Proof.
  apply degenerate_bounds_coalesce_nothing. left. discriminate.
Defined.

Lemma group_below_bounds_is_one_batch_witness :
  batched_partition 100000 10 [record 0 40000; record 1 40000]
  = [[record 0 40000; record 1 40000]].
Proof.
  apply group_below_bounds_is_one_batch.
  - discriminate.
  - repeat constructor; discriminate.
  - reflexivity.
  - reflexivity.
Defined.

Lemma batching_restarts_after_closed_batch_witness :
  batched_partition 100000 2 ([record 0 1; record 1 1] ++ [record 2 1])
  = batched_partition 100000 2 [record 0 1; record 1 1]
    ++ batched_partition 100000 2 [record 2 1].
Proof.
  apply batching_restarts_after_closed_batch. reflexivity.
Defined.

Lemma listing_batches_found :
  at_partition
    (batched_object_summaries 50 10 (grouped_object_summaries listing))
    (txt "t") 0 = Some listing_batches.
Proof. vm_compute. reflexivity. Qed.

Lemma plan_holds_each_object_once_witness :
  concat listing_batches
  ≡ₚ filter (of_group (txt "t") 0) (parsed_objects listing)
  /\ StronglySorted (fun a b => start_offset a <= start_offset b)
       (concat listing_batches)
  /\ listing_batches <> [].
Proof.
  exact (plan_holds_each_object_once 50 10 listing (txt "t") 0
           listing_batches listing_batches_found).
Defined.

Lemma batch_overshoot_is_bounded_witness :
  Forall (fun batch =>
            exists init last,
              batch = init ++ [last] /\
              total_size batch < 100000 + size_ last)
         (batched_partition 100000 10
            [record 0 40000; record 1 40000; record 2 40000]).
Proof. apply batch_overshoot_is_bounded. reflexivity. Defined.
